(** * Time-tick sync inspector (streamingnode / wal / timetick / inspector)

    A shallow embedding of [impls.go]: the inspector struct, its public
    methods, the scheduler loop [background], the dispatcher [asyncSync] and
    [Close], together with an interleaving semantics for the goroutines the
    code starts.  A step of the semantics is one atomic operation on a shared
    structure (concurrent map, concurrent set, wait group, task notifier),
    or a few of them where no other thread can tell the difference (see
    [asyncSync], [background_wake], [background_shutdown]); the scheduler of
    the Go runtime is the list of actions a run follows. *)

From stdpp Require Import gmap strings list fin_maps.

(** ** Data model *)

(** Modelled from the spec: [types.PChannelInfo] is declared outside this
    package.  The code only reads its [Name]; the rest is metadata the
    inspector never interprets, kept here as one integer so that two
    identities can share a name. *)
Record PChannelInfo := { Name : string; Term : Z }.

#[global] Instance PChannelInfo_eq_dec : EqDecision PChannelInfo.
Proof. solve_decision. Defined.

#[global] Instance PChannelInfo_countable : Countable PChannelInfo.
Proof.
  apply (inj_countable' (λ c, (Name c, Term c)) (λ p, {| Name := p.1; Term := p.2 |})).
  by intros [].
Defined.

(** The interface [TimeTickSyncOperator]: [Channel()] is a field, [Sync] is
    an effect of the environment (see [Action]); [op_id] tells apart two
    operators of one channel. *)
Record TimeTickSyncOperator := { op_id : nat; Channel : PChannelInfo }.

#[global] Instance TimeTickSyncOperator_eq_dec : EqDecision TimeTickSyncOperator.
Proof. solve_decision. Defined.

(** *** Package [typeutil]: concurrent map and concurrent set

    The helpers of [typeutil] are declared outside this package.  Each
    operation is atomic, so each is a function on the contents. *)
Module typeutil.
Section ConcurrentMap.
Context {V : Type}.
Implicit Types (m : gmap string V).

(** Modelled from the spec: [ConcurrentMap.Get] (Lookup) returns the value
    together with the [ok] flag of Go, here an option. *)
Definition Get (k : string) m : option V := m !! k.

(** Modelled from the spec: [ConcurrentMap.GetOrInsert] returns the stored
    value and [loaded = true] when the key is present and leaves the map as
    it is; otherwise it stores [v] and returns it with [loaded = false]. *)
Definition GetOrInsert (k : string) (v : V) m : V * bool * gmap string V :=
  match m !! k with
  | Some old => (old, true, m)
  | None => (v, false, <[k := v]> m)
  end.

(** Modelled from the spec: [ConcurrentMap.GetAndRemove] removes the entry
    and reports whether it was there. *)
Definition GetAndRemove (k : string) m : option V * gmap string V :=
  match m !! k with
  | Some old => (Some old, delete k m)
  | None => (None, m)
  end.

(** Modelled from the spec: [ConcurrentMap.Range] (ForEach) visits a snapshot
    of the entries in an order that is not specified; [order] is a legal
    visiting order of the keys of [m]. *)
Definition Range_order (order : list string) m : bool :=
  bool_decide (order ≡ₚ (map_to_list m).*1).
End ConcurrentMap.

(** Modelled from the spec: [ConcurrentSet.Insert] is an atomic "insert if
    absent"; the flag tells whether the element was inserted. *)
Definition Insert (x : string) (s : gset string) : bool * gset string :=
  if decide (x ∈ s) then (false, s) else (true, {[x]} ∪ s).

(** Modelled from the spec: [ConcurrentSet.Remove] deletes the element. *)
Definition Remove (x : string) (s : gset string) : gset string := s ∖ {[x]}.
End typeutil.

(** *** Package [syncutil]: the task notifier *)
Module syncutil.
(** Modelled from the spec: [syncutil.AsyncTaskNotifier] is a cancellation
    context ([Context().Done()] is closed once [ctx_done] holds) and a latch
    that [BlockUntilFinish] waits for. *)
Record AsyncTaskNotifier := { ctx_done : bool; finished : bool }.

(** Modelled from the spec: a new notifier is neither cancelled nor finished. *)
Definition NewAsyncTaskNotifier : AsyncTaskNotifier :=
  {| ctx_done := false; finished := false |}.
(** Modelled from the spec: [Cancel] raises the shutdown signal. *)
Definition Cancel (n : AsyncTaskNotifier) : AsyncTaskNotifier :=
  {| ctx_done := true; finished := finished n |}.
(** Modelled from the spec: [Finish] releases the callers blocked in
    [BlockUntilFinish]. *)
Definition Finish (n : AsyncTaskNotifier) : AsyncTaskNotifier :=
  {| ctx_done := ctx_done n; finished := true |}.
End syncutil.

(** *** The signal accumulator [syncNotifier]

    It lives in another file of the package.  Its pending map is keyed by the
    channel identity handed to [TriggerSync]: [background] reads
    [pchannel.Name] from each key of the drained map. *)
Module syncNotifier.
(** Modelled from the spec: [newSyncNotifier] starts with no pending signal. *)
Definition new : gmap PChannelInfo bool := ∅.

(** Modelled from the spec: [AddAndNotify] merges the flag into the pending
    signal of the channel by logical OR with a value not yet drained (section
    4.2), and wakes the consumer. *)
Definition AddAndNotify (pChannelInfo : PChannelInfo) (persisted : bool)
    (n : gmap PChannelInfo bool) : gmap PChannelInfo bool :=
  match n !! pChannelInfo with
  | Some old => <[pChannelInfo := old || persisted]> n
  | None => <[pChannelInfo := persisted]> n
  end.

(** Modelled from the spec: [Get] (DrainAll) removes and returns all pending
    signals: the first component is the drained map, the second what stays. *)
Definition Get (n : gmap PChannelInfo bool)
    : gmap PChannelInfo bool * gmap PChannelInfo bool := (n, ∅).

(** Modelled from the spec: [WaitChan] fires when at least one pending signal
    exists. *)
Definition WaitChan_ready (n : gmap PChannelInfo bool) : bool :=
  bool_decide (n ≠ ∅).
End syncNotifier.

(** The struct [timeTickSyncInspectorImpl]; [wg] is the counter of the
    [sync.WaitGroup]. *)
Record timeTickSyncInspectorImpl := {
  taskNotifier : syncutil.AsyncTaskNotifier;
  syncNotifier : gmap PChannelInfo bool;
  operators : gmap string TimeTickSyncOperator;
  wg : nat;
  working : gset string;
}.

Definition set_taskNotifier (f : syncutil.AsyncTaskNotifier → syncutil.AsyncTaskNotifier)
    (s : timeTickSyncInspectorImpl) : timeTickSyncInspectorImpl :=
  {| taskNotifier := f (taskNotifier s); syncNotifier := syncNotifier s;
     operators := operators s; wg := wg s; working := working s |}.
Definition set_syncNotifier (f : gmap PChannelInfo bool → gmap PChannelInfo bool)
    (s : timeTickSyncInspectorImpl) : timeTickSyncInspectorImpl :=
  {| taskNotifier := taskNotifier s; syncNotifier := f (syncNotifier s);
     operators := operators s; wg := wg s; working := working s |}.
Definition set_operators (f : gmap string TimeTickSyncOperator → gmap string TimeTickSyncOperator)
    (s : timeTickSyncInspectorImpl) : timeTickSyncInspectorImpl :=
  {| taskNotifier := taskNotifier s; syncNotifier := syncNotifier s;
     operators := f (operators s); wg := wg s; working := working s |}.
Definition set_wg (f : nat → nat) (s : timeTickSyncInspectorImpl) : timeTickSyncInspectorImpl :=
  {| taskNotifier := taskNotifier s; syncNotifier := syncNotifier s;
     operators := operators s; wg := f (wg s); working := working s |}.
Definition set_working (f : gset string → gset string)
    (s : timeTickSyncInspectorImpl) : timeTickSyncInspectorImpl :=
  {| taskNotifier := taskNotifier s; syncNotifier := syncNotifier s;
     operators := operators s; wg := wg s; working := f (working s) |}.

(** ** Public methods: a state monad with panics *)

Inductive outcome (A : Type) : Type :=
  | Returned (a : A)
  | Panicked (msg : string).
Arguments Returned {A} a.
Arguments Panicked {A} msg.

Definition M (A : Type) : Type :=
  timeTickSyncInspectorImpl → outcome A * timeTickSyncInspectorImpl.

Definition ret {A} (a : A) : M A := λ s, (Returned a, s).
Definition panic {A} (msg : string) : M A := λ s, (Panicked msg, s).
Definition bind {A B} (m : M A) (k : A → M B) : M B :=
  λ s, match m s with
       | (Returned a, s') => k a s'
       | (Panicked msg, s') => (Panicked msg, s')
       end.
Notation "x ←ᵍ m ; k" := (bind m (λ x, k))
  (at level 100, m at next level, right associativity).

Definition operators_Get (k : string) : M (option TimeTickSyncOperator) :=
  λ s, (Returned (typeutil.Get k (operators s)), s).
Definition operators_GetOrInsert (k : string) (v : TimeTickSyncOperator)
    : M (TimeTickSyncOperator * bool) :=
  λ s, let '(old, loaded, m') := typeutil.GetOrInsert k v (operators s) in
       (Returned (old, loaded), set_operators (λ _, m') s).
Definition operators_GetAndRemove (k : string) : M (option TimeTickSyncOperator) :=
  λ s, let '(old, m') := typeutil.GetAndRemove k (operators s) in
       (Returned old, set_operators (λ _, m') s).

Definition TriggerSync (pChannelInfo : PChannelInfo) (persisted : bool) : M unit :=
  λ s, (Returned tt, set_syncNotifier (syncNotifier.AddAndNotify pChannelInfo persisted) s).

Definition MustGetOperator (pChannelInfo : PChannelInfo) : M TimeTickSyncOperator :=
  r ←ᵍ operators_Get (Name pChannelInfo);
  match r with
  | None => panic "sync operator not found, critical bug in code"%string
  | Some operator => ret operator
  end.

Definition RegisterSyncOperator (operator : TimeTickSyncOperator) : M unit :=
  r ←ᵍ operators_GetOrInsert (Name (Channel operator)) operator;
  if r.2 then panic "sync operator already exists, critical bug in code"%string
  else ret tt.

Definition UnregisterSyncOperator (operator : TimeTickSyncOperator) : M unit :=
  r ←ᵍ operators_GetAndRemove (Name (Channel operator));
  match r with
  | None => panic "sync operator not found, critical bug in code"%string
  | Some _ => ret tt
  end.

(** ** Goroutines, the scheduler loop and callers of [Close] *)

(** Where a goroutine started by [asyncSync] stands: before the registry
    lookup, inside [operator.Sync], before [s.wg.Done()], before
    [s.working.Remove(pchannelName)], or gone. *)
Inductive GoPc :=
  | GStart
  | GSyncing (operator : TimeTickSyncOperator)
  | GDeferDone
  | GDeferRemove
  | GExited.

#[global] Instance GoPc_eq_dec : EqDecision GoPc.
Proof. solve_decision. Defined.

(** The closure of [go func() {...}]: the captured [pchannelName] and
    [persisted], the program counter, and whether the deferred function runs
    because [Sync] panicked. *)
Record Goroutine := {
  g_name : string;
  g_persisted : bool;
  g_pc : GoPc;
  g_panicking : bool;
}.

Definition set_pc (pc : GoPc) (g : Goroutine) : Goroutine :=
  {| g_name := g_name g; g_persisted := g_persisted g; g_pc := pc;
     g_panicking := g_panicking g |}.
Definition set_panicking (g : Goroutine) : Goroutine :=
  {| g_name := g_name g; g_persisted := g_persisted g; g_pc := g_pc g;
     g_panicking := true |}.

(** Where [background] stands: at the [select], inside the [Range] of the
    tick case, inside the [for ... range signals] of the notifier case, or
    returned (the deferred [Finish] has run). *)
Inductive LoopPc :=
  | LSelect
  | LRange (rest : list string)
  | LSignals (rest : list (PChannelInfo * bool))
  | LReturned.

#[global] Instance LoopPc_eq_dec : EqDecision LoopPc.
Proof. solve_decision. Defined.

(** Where a caller of [Close] stands after [Cancel]: blocked in
    [BlockUntilFinish], blocked in [wg.Wait], or returned. *)
Inductive ClosePc := CBlockUntilFinish | CWgWait | CReturned.

#[global] Instance ClosePc_eq_dec : EqDecision ClosePc.
Proof. solve_decision. Defined.

(** What an observer sees: a dispatch request of the loop (a call of
    [asyncSync]) and a call of [operator.Sync]. *)
Inductive Event :=
  | EvDispatch (pchannelName : string) (persisted : bool)
  | EvSync (operator : TimeTickSyncOperator) (persisted : bool).

#[global] Instance Event_eq_dec : EqDecision Event.
Proof. solve_decision. Defined.

Record System := {
  insp : timeTickSyncInspectorImpl;
  loop : LoopPc;
  goroutines : list Goroutine;
  closers : gmap nat ClosePc;
  trace : list Event;
  crashed : bool;
}.

Definition set_insp (f : timeTickSyncInspectorImpl → timeTickSyncInspectorImpl)
    (σ : System) : System :=
  {| insp := f (insp σ); loop := loop σ; goroutines := goroutines σ;
     closers := closers σ; trace := trace σ; crashed := crashed σ |}.
Definition set_loop (pc : LoopPc) (σ : System) : System :=
  {| insp := insp σ; loop := pc; goroutines := goroutines σ;
     closers := closers σ; trace := trace σ; crashed := crashed σ |}.
Definition set_goroutines (f : list Goroutine → list Goroutine) (σ : System) : System :=
  {| insp := insp σ; loop := loop σ; goroutines := f (goroutines σ);
     closers := closers σ; trace := trace σ; crashed := crashed σ |}.
Definition set_closers (f : gmap nat ClosePc → gmap nat ClosePc) (σ : System) : System :=
  {| insp := insp σ; loop := loop σ; goroutines := goroutines σ;
     closers := f (closers σ); trace := trace σ; crashed := crashed σ |}.
Definition emit (e : Event) (σ : System) : System :=
  {| insp := insp σ; loop := loop σ; goroutines := goroutines σ;
     closers := closers σ; trace := trace σ ++ [e]; crashed := crashed σ |}.
Definition crash (σ : System) : System :=
  {| insp := insp σ; loop := loop σ; goroutines := goroutines σ;
     closers := closers σ; trace := trace σ; crashed := true |}.

(** [NewTimeTickSyncInspector]: empty structures, and [background] already
    started. *)
Definition NewTimeTickSyncInspector : System :=
  {| insp := {| taskNotifier := syncutil.NewAsyncTaskNotifier;
                syncNotifier := syncNotifier.new;
                operators := ∅; wg := 0; working := ∅ |};
     loop := LSelect; goroutines := []; closers := ∅; trace := [];
     crashed := false |}.

(** The goroutine [go func() {...}()] as [asyncSync] starts it. *)
Definition launched (pchannelName : string) (persisted : bool) : Goroutine :=
  {| g_name := pchannelName; g_persisted := persisted; g_pc := GStart;
     g_panicking := false |}.

(** [asyncSync]: the insert into [working] decides; on success the wait group
    is incremented and the goroutine is started.  Only [background] runs it,
    and the one reader of the counter, [wg.Wait()] in [Close], runs after
    [background] has returned, so the three operations are taken as one
    step. *)
Definition asyncSync (pchannelName : string) (persisted : bool) (σ : System) : System :=
  let '(inserted, working') := typeutil.Insert pchannelName (working (insp σ)) in
  if negb inserted then σ
  else
    set_goroutines (λ gs, gs ++ [launched pchannelName persisted])
      (set_insp (λ s, set_wg S (set_working (λ _, working') s)) σ).

(** ** Interleaving semantics *)

(** Calls of the public methods by the surrounding WAL layer. *)
Inductive Call :=
  | CallTriggerSync (pChannelInfo : PChannelInfo) (persisted : bool)
  | CallMustGetOperator (pChannelInfo : PChannelInfo)
  | CallRegisterSyncOperator (operator : TimeTickSyncOperator)
  | CallUnregisterSyncOperator (operator : TimeTickSyncOperator).

Definition run_call (c : Call) : M unit :=
  match c with
  | CallTriggerSync pChannelInfo persisted => TriggerSync pChannelInfo persisted
  | CallMustGetOperator pChannelInfo => _ ←ᵍ MustGetOperator pChannelInfo; ret tt
  | CallRegisterSyncOperator operator => RegisterSyncOperator operator
  | CallUnregisterSyncOperator operator => UnregisterSyncOperator operator
  end.

(** One atomic step of one thread.  [ALoopTick] and [ALoopWake] carry the
    visiting order the runtime picks; [ASyncReturn] and [ASyncPanic] are the
    two ways the environment ends a running [Sync]. *)
Inductive Action :=
  | ACall (c : Call)
  | AClose (caller : nat)
  | ALoopShutdown
  | ALoopTick (order : list string)
  | ALoopWake (order : list (PChannelInfo * bool))
  | ALoopNext
  | AGo (i : nat)
  | ASyncReturn (i : nat)
  | ASyncPanic (i : nat).

(** [Close]: [Cancel], then [BlockUntilFinish], then [wg.Wait]; the last two
    block until their condition holds. *)
Definition Close_step (caller : nat) (σ : System) : option System :=
  match closers σ !! caller with
  | None =>
      Some (set_closers <[caller := CBlockUntilFinish]>
              (set_insp (set_taskNotifier syncutil.Cancel) σ))
  | Some CBlockUntilFinish =>
      if syncutil.finished (taskNotifier (insp σ))
      then Some (set_closers <[caller := CWgWait]> σ) else None
  | Some CWgWait =>
      if decide (wg (insp σ) = 0)
      then Some (set_closers <[caller := CReturned]> σ) else None
  | Some CReturned => None
  end.

(** [background]: the three cases of the [select], and one iteration of the
    loop body of the tick case or of the notifier case.  The [select] picks
    any case that is ready.  In the shutdown case the [return] and the
    deferred [Finish] are one step.  In the notifier case the wake-up and the
    drain [Get()] are one step, taken when [Get()] runs: only this loop
    removes pending signals, so the channel that fired is still ready then.
    The ticker may fire at any time. *)
Definition background_shutdown (σ : System) : option System :=
  match loop σ with
  | LSelect =>
      if syncutil.ctx_done (taskNotifier (insp σ))
      then Some (set_loop LReturned (set_insp (set_taskNotifier syncutil.Finish) σ))
      else None
  | _ => None
  end.

Definition background_tick (order : list string) (σ : System) : option System :=
  match loop σ with
  | LSelect =>
      if typeutil.Range_order order (operators (insp σ))
      then Some (set_loop (LRange order) σ) else None
  | _ => None
  end.

Definition background_wake (order : list (PChannelInfo * bool)) (σ : System)
    : option System :=
  match loop σ with
  | LSelect =>
      if syncNotifier.WaitChan_ready (syncNotifier (insp σ)) then
        let '(signals, rest) := syncNotifier.Get (syncNotifier (insp σ)) in
        if decide (order ≡ₚ map_to_list signals)
        then Some (set_loop (LSignals order) (set_insp (set_syncNotifier (λ _, rest)) σ))
        else None
      else None
  | _ => None
  end.

Definition background_next (σ : System) : option System :=
  match loop σ with
  | LRange (name :: rest) =>
      Some (set_loop (LRange rest) (asyncSync name false (emit (EvDispatch name false) σ)))
  | LSignals ((pchannel, persisted) :: rest) =>
      Some (set_loop (LSignals rest)
              (asyncSync (Name pchannel) persisted
                 (emit (EvDispatch (Name pchannel) persisted) σ)))
  | LRange [] | LSignals [] => Some (set_loop LSelect σ)
  | LSelect | LReturned => None
  end.

(** The goroutine of [asyncSync].  [wg.Done()] on a zero counter panics in Go
    ("negative WaitGroup counter"); a panic that leaves the goroutine ends the
    process.  The registry lookup and the start of [operator.Sync] are one
    step here, although the source takes no lock between them: an
    unregistration that falls between the two is not represented, and no
    statement below speaks of the registry at the time of the call, only at
    the time of the lookup. *)
Inductive GoAction := GoRun | GoSyncReturn | GoSyncPanic.

Definition goroutine_step (i : nat) (a : GoAction) (σ : System) : option System :=
  match goroutines σ !! i with
  | None => None
  | Some g =>
      match g_pc g, a with
      | GStart, GoRun =>
          match typeutil.Get (g_name g) (operators (insp σ)) with
          | Some operator =>
              Some (emit (EvSync operator (g_persisted g))
                      (set_goroutines <[i := set_pc (GSyncing operator) g]> σ))
          | None => Some (set_goroutines <[i := set_pc GDeferDone g]> σ)
          end
      | GSyncing _, GoSyncReturn =>
          Some (set_goroutines <[i := set_pc GDeferDone g]> σ)
      | GSyncing _, GoSyncPanic =>
          Some (set_goroutines <[i := set_pc GDeferDone (set_panicking g)]> σ)
      | GDeferDone, GoRun =>
          match wg (insp σ) with
          | 0 => Some (crash σ)
          | S n =>
              Some (set_goroutines <[i := set_pc GDeferRemove g]>
                      (set_insp (set_wg (λ _, n)) σ))
          end
      | GDeferRemove, GoRun =>
          let σ' := set_goroutines <[i := set_pc GExited g]>
                      (set_insp (set_working (typeutil.Remove (g_name g))) σ) in
          Some (if g_panicking g then crash σ' else σ')
      | _, _ => None
      end
  end.

(** A panic of a public method unwinds into its caller, which may recover:
    the system goes on with the state the method left. *)
Definition step (σ : System) (a : Action) : option System :=
  if crashed σ then None else
  match a with
  | ACall c => Some (set_insp (λ s, (run_call c s).2) σ)
  | AClose caller => Close_step caller σ
  | ALoopShutdown => background_shutdown σ
  | ALoopTick order => background_tick order σ
  | ALoopWake order => background_wake order σ
  | ALoopNext => background_next σ
  | AGo i => goroutine_step i GoRun σ
  | ASyncReturn i => goroutine_step i GoSyncReturn σ
  | ASyncPanic i => goroutine_step i GoSyncPanic σ
  end.

Fixpoint run (σ : System) (acts : list Action) : option System :=
  match acts with
  | [] => Some σ
  | a :: acts' =>
      match step σ a with
      | Some σ' => run σ' acts'
      | None => None
      end
  end.

Inductive reachable : System → Prop :=
  | reachable_new : reachable NewTimeTickSyncInspector
  | reachable_step σ a σ' : reachable σ → step σ a = Some σ' → reachable σ'.

(** ** Executions in flight *)

(** A goroutine is in flight from its launch until it has removed its name
    from [working]; it is tracked by the wait group until [wg.Done()]. *)
Definition in_flight (g : Goroutine) : bool := bool_decide (g_pc g ≠ GExited).

Definition tracked (g : Goroutine) : bool :=
  match g_pc g with
  | GStart | GSyncing _ | GDeferDone => true
  | GDeferRemove | GExited => false
  end.

Definition executions (C : string) (σ : System) : list Goroutine :=
  filter (λ g, g_name g = C ∧ in_flight g = true) (goroutines σ).

Definition count_tracked (gs : list Goroutine) : nat :=
  sum_list_with (λ g, if tracked g then 1 else 0) gs.

(** The launched goroutines agree with the dedup set: the members of [w] are
    the names of the goroutines in flight, and no two of those share one. *)
Definition pool_inv (w : gset string) (gs : list Goroutine) : Prop :=
  (∀ n, n ∈ w ↔ ∃ i g, gs !! i = Some g ∧ g_name g = n ∧ g_pc g ≠ GExited) ∧
  (∀ i j g h, gs !! i = Some g → gs !! j = Some h →
     g_pc g ≠ GExited → g_pc h ≠ GExited → g_name g = g_name h → i = j).

Record inv (σ : System) : Prop := {
  inv_pool : pool_inv (working (insp σ)) (goroutines σ);
  inv_wg : wg (insp σ) = count_tracked (goroutines σ);
  inv_finished :
    syncutil.finished (taskNotifier (insp σ)) = true ↔ loop σ = LReturned;
  inv_closers : ∀ c pc, closers σ !! c = Some pc → pc ≠ CBlockUntilFinish →
    syncutil.finished (taskNotifier (insp σ)) = true;
}.

(** The dispatch requests among the observed events. *)
Definition is_dispatch (e : Event) : bool :=
  match e with EvDispatch _ _ => true | EvSync _ _ => false end.

Definition dispatches (tr : list Event) : list Event :=
  filter (λ e, is_dispatch e = true) tr.

(** The [Sync] call of a goroutine has returned (or was skipped) once the
    goroutine has passed [wg.Done()]. *)
Definition sync_returned (g : Goroutine) : Prop :=
  g_pc g = GDeferRemove ∨ g_pc g = GExited.

(** ** A concrete deployment used to exercise the statements *)

Definition chA : PChannelInfo := {| Name := "A"; Term := 1 |}.
Definition chB : PChannelInfo := {| Name := "B"; Term := 1 |}.
Definition opA : TimeTickSyncOperator := {| op_id := 0; Channel := chA |}.
Definition opB : TimeTickSyncOperator := {| op_id := 1; Channel := chB |}.

(** A and B are registered, a tick visits B then A, both goroutines are
    inside [Sync]. *)
Definition sched_tick : list Action :=
  [ACall (CallRegisterSyncOperator opA); ACall (CallRegisterSyncOperator opB);
   ALoopTick ["B"; "A"]%string; ALoopNext; ALoopNext; ALoopNext; AGo 0; AGo 1].

Definition state_tick : System :=
  Eval vm_compute in default NewTimeTickSyncInspector (run NewTimeTickSyncInspector sched_tick).

(** The same, followed by a full [Close] while both [Sync] calls return. *)
Definition sched_close : list Action :=
  sched_tick ++
  [AClose 0; ALoopShutdown; AClose 0; ASyncReturn 0; ASyncReturn 1;
   AGo 0; AGo 1; AClose 0].

Definition state_close : System :=
  Eval vm_compute in default NewTimeTickSyncInspector (run NewTimeTickSyncInspector sched_close).

(** The remaining steps of goroutine [i] taken in a row; [panics] tells how a
    [Sync] call in progress ends. *)
Fixpoint complete (fuel : nat) (i : nat) (panics : bool) (σ : System) : option System :=
  match fuel with
  | 0 => None
  | S fuel =>
      match goroutines σ !! i with
      | None => None
      | Some g =>
          match g_pc g with
          | GExited => Some σ
          | GSyncing _ =>
              step σ (if panics then ASyncPanic i else ASyncReturn i)
                ≫= complete fuel i panics
          | GStart | GDeferDone | GDeferRemove =>
              step σ (AGo i) ≫= complete fuel i panics
          end
      end
  end.

(** Goroutine [i] has left: its deferred function has run to its end. *)
Definition exited (i : nat) (σ : System) : Prop :=
  ∃ g, goroutines σ !! i = Some g ∧ g_pc g = GExited.

(** A goroutine unwinds from a panic only while its deferred function runs. *)
Definition panic_ok (g : Goroutine) : Prop :=
  g_panicking g = true → g_pc g ≠ GStart ∧ ∀ operator, g_pc g ≠ GSyncing operator.

(** One iteration of either loop body of [background]: the request is
    observed, then [asyncSync] runs. *)
Definition dispatch (req : string * bool) (σ : System) : System :=
  asyncSync req.1 req.2 (emit (EvDispatch req.1 req.2) σ).

Definition dispatch_all (reqs : list (string * bool)) (σ : System) : System :=
  foldl (λ σ' req, dispatch req σ') σ reqs.

(** The requests of a tick and of a drained signal map. *)
Definition tick_requests (order : list string) : list (string * bool) :=
  (λ name, (name, false)) <$> order.

Definition signal_requests (order : list (PChannelInfo * bool)) : list (string * bool) :=
  (λ sig, (Name sig.1, sig.2)) <$> order.


(** A tick served without interference: the timer fires, the loop visits the
    registry in [order] and goes back to the [select], then each goroutine
    launched (the first has index [base]) looks its operator up and calls
    [Sync]. *)
Definition tick_sweep (order : list string) : list Action :=
  ALoopTick order :: replicate (length order) ALoopNext ++ [ALoopNext].


(** A wake-up of the accumulator served without interference. *)
Definition wake_sweep (order : list (PChannelInfo * bool)) : list Action :=
  ALoopWake order :: replicate (length order) ALoopNext ++ [ALoopNext].

(** A and B are registered and nothing else has happened. *)
Definition sched_registered : list Action :=
  [ACall (CallRegisterSyncOperator opA); ACall (CallRegisterSyncOperator opB)].

Definition state_registered : System :=
  Eval vm_compute in
    default NewTimeTickSyncInspector (run NewTimeTickSyncInspector sched_registered).

(** A is registered, a tick launches its goroutine, and A is unregistered
    before the goroutine looks it up. *)
Definition sched_unregistered : list Action :=
  [ACall (CallRegisterSyncOperator opA); ALoopTick ["A"%string]; ALoopNext;
   ALoopNext; ACall (CallUnregisterSyncOperator opA)].

Definition state_unregistered : System :=
  Eval vm_compute in
    default NewTimeTickSyncInspector (run NewTimeTickSyncInspector sched_unregistered).

(** A is registered and in flight when a second tick reaches it. *)
Definition sched_retick : list Action :=
  [ACall (CallRegisterSyncOperator opA); ALoopTick ["A"%string]; ALoopNext;
   ALoopNext; AGo 0; ALoopTick ["A"%string]].

Definition state_retick : System :=
  Eval vm_compute in
    default NewTimeTickSyncInspector (run NewTimeTickSyncInspector sched_retick).

(** After [sched_tick], the [Sync] of B panics and its deferred function has
    called [wg.Done()]. *)
Definition sched_panic : list Action := sched_tick ++ [ASyncPanic 0; AGo 0].

Definition state_panic : System :=
  Eval vm_compute in
    default NewTimeTickSyncInspector (run NewTimeTickSyncInspector sched_panic).

(** ** The steps as a relation

    [step_rel σ a σ'] lists the steps by the line of [impls.go] they run;
    [step_spec] below shows that every step of [step] is one of them. *)
Inductive step_rel : System → Action → System → Prop :=
  | SCall σ c :
      step_rel σ (ACall c) (set_insp (λ s, (run_call c s).2) σ)
  | SCloseCancel σ caller :
      closers σ !! caller = None →
      step_rel σ (AClose caller)
        (set_closers <[caller := CBlockUntilFinish]>
           (set_insp (set_taskNotifier syncutil.Cancel) σ))
  | SCloseUnblock σ caller :
      closers σ !! caller = Some CBlockUntilFinish →
      syncutil.finished (taskNotifier (insp σ)) = true →
      step_rel σ (AClose caller) (set_closers <[caller := CWgWait]> σ)
  | SCloseReturn σ caller :
      closers σ !! caller = Some CWgWait →
      wg (insp σ) = 0 →
      step_rel σ (AClose caller) (set_closers <[caller := CReturned]> σ)
  | SShutdown σ :
      loop σ = LSelect →
      syncutil.ctx_done (taskNotifier (insp σ)) = true →
      step_rel σ ALoopShutdown
        (set_loop LReturned (set_insp (set_taskNotifier syncutil.Finish) σ))
  | STick σ order :
      loop σ = LSelect →
      order ≡ₚ (map_to_list (operators (insp σ))).*1 →
      step_rel σ (ALoopTick order) (set_loop (LRange order) σ)
  | SWake σ order :
      loop σ = LSelect →
      syncNotifier (insp σ) ≠ ∅ →
      order ≡ₚ map_to_list (syncNotifier (insp σ)) →
      step_rel σ (ALoopWake order)
        (set_loop (LSignals order) (set_insp (set_syncNotifier (λ _, ∅)) σ))
  | SNextRange σ name rest :
      loop σ = LRange (name :: rest) →
      step_rel σ ALoopNext (set_loop (LRange rest) (dispatch (name, false) σ))
  | SNextSignals σ pchannel persisted rest :
      loop σ = LSignals ((pchannel, persisted) :: rest) →
      step_rel σ ALoopNext
        (set_loop (LSignals rest) (dispatch (Name pchannel, persisted) σ))
  | SNextEnd σ :
      loop σ = LRange [] ∨ loop σ = LSignals [] →
      step_rel σ ALoopNext (set_loop LSelect σ)
  | SGoFound σ i g operator :
      goroutines σ !! i = Some g → g_pc g = GStart →
      operators (insp σ) !! g_name g = Some operator →
      step_rel σ (AGo i)
        (emit (EvSync operator (g_persisted g))
           (set_goroutines <[i := set_pc (GSyncing operator) g]> σ))
  | SGoMissing σ i g :
      goroutines σ !! i = Some g → g_pc g = GStart →
      operators (insp σ) !! g_name g = None →
      step_rel σ (AGo i) (set_goroutines <[i := set_pc GDeferDone g]> σ)
  | SSyncReturn σ i g operator :
      goroutines σ !! i = Some g → g_pc g = GSyncing operator →
      step_rel σ (ASyncReturn i) (set_goroutines <[i := set_pc GDeferDone g]> σ)
  | SSyncPanic σ i g operator :
      goroutines σ !! i = Some g → g_pc g = GSyncing operator →
      step_rel σ (ASyncPanic i)
        (set_goroutines <[i := set_pc GDeferDone (set_panicking g)]> σ)
  | SGoDoneNegative σ i g :
      goroutines σ !! i = Some g → g_pc g = GDeferDone →
      wg (insp σ) = 0 →
      step_rel σ (AGo i) (crash σ)
  | SGoDone σ i g n :
      goroutines σ !! i = Some g → g_pc g = GDeferDone →
      wg (insp σ) = S n →
      step_rel σ (AGo i)
        (set_goroutines <[i := set_pc GDeferRemove g]>
           (set_insp (set_wg (λ _, n)) σ))
  | SGoRemove σ i g :
      goroutines σ !! i = Some g → g_pc g = GDeferRemove →
      step_rel σ (AGo i)
        (let σ' := set_goroutines <[i := set_pc GExited g]>
                     (set_insp (set_working (typeutil.Remove (g_name g))) σ) in
         if g_panicking g then crash σ' else σ').

(** The [Sync] calls among the observed events, and the goroutines that have
    passed their registry lookup. *)
Definition sync_events (tr : list Event) : list Event :=
  filter (λ e, is_dispatch e = false) tr.

Definition past_start (g : Goroutine) : bool := bool_decide (g_pc g ≠ GStart).

Definition count_past_start (gs : list Goroutine) : nat :=
  sum_list_with (λ g, if past_start g then 1 else 0) gs.

(** What the code keeps true besides [inv]: the registry is keyed by the
    channel name of the operator it holds; the process is brought down only by
    a [Sync] that panicked; [background] returns only after a cancel, and a
    cancel comes only from [Close]; [Sync] calls, goroutines and dispatch
    requests are counted against each other. *)
Record inv_more (σ : System) : Prop := {
  more_keys : ∀ name operator,
    operators (insp σ) !! name = Some operator → Name (Channel operator) = name;
  more_crash : crashed σ = true → ∃ g, g ∈ goroutines σ ∧ g_panicking g = true;
  more_returned_cancel :
    loop σ = LReturned → syncutil.ctx_done (taskNotifier (insp σ)) = true;
  more_cancel_close :
    syncutil.ctx_done (taskNotifier (insp σ)) = true ↔ ∃ c pc, closers σ !! c = Some pc;
  more_syncs : length (sync_events (trace σ)) ≤ count_past_start (goroutines σ);
  more_launches : length (goroutines σ) ≤ length (dispatches (trace σ));
}.

(** Classes of actions: the two calls that write the registry, and the
    panic of a [Sync] call. *)
Definition is_registry_call (a : Action) : bool :=
  match a with
  | ACall (CallRegisterSyncOperator _) | ACall (CallUnregisterSyncOperator _) => true
  | _ => false
  end.

Definition is_sync_panic (a : Action) : bool :=
  match a with ASyncPanic _ => true | _ => false end.

Definition is_close (a : Action) : bool :=
  match a with AClose _ => true | _ => false end.

(** B is registered, and [background] is about to serve a tick. *)
Definition sched_ticking : list Action :=
  [ACall (CallRegisterSyncOperator opB); ALoopTick ["B"%string]].

Definition state_ticking : System :=
  Eval vm_compute in
    default NewTimeTickSyncInspector (run NewTimeTickSyncInspector sched_ticking).

(** What the steps of goroutine [i] leave alone. *)
Definition goroutine_frame (i : nat) (σ σ' : System) : Prop :=
  loop σ' = loop σ ∧ closers σ' = closers σ ∧
  taskNotifier (insp σ') = taskNotifier (insp σ) ∧
  length (goroutines σ') = length (goroutines σ) ∧
  ∀ j, j ≠ i → goroutines σ' !! j = goroutines σ !! j.

(** The first [Close] has returned; the state after it is [state_close]. *)
Definition sched_close_again : list Action := [AClose 1; AClose 1; AClose 1].

(** Where the flag of a [Sync] call comes from.  [T] holds of the channel
    identities for which [TriggerSync(_, true)] has been called.  A pending
    or drained [true] belongs to such an identity, every goroutine carries the
    name and flag of a recorded dispatch request, a request with flag [true]
    is for the name of such an identity, and every [Sync] call answers a
    recorded request for the channel name of its operator, with its flag. *)
Definition triggered (T : PChannelInfo → Prop) (name : string) : Prop :=
  ∃ pChannelInfo, Name pChannelInfo = name ∧ T pChannelInfo.

Record inv_flags (T : PChannelInfo → Prop) (σ : System) : Prop := {
  flags_pending : ∀ pChannelInfo,
    syncNotifier (insp σ) !! pChannelInfo = Some true → T pChannelInfo;
  flags_loop : ∀ rest pChannelInfo,
    loop σ = LSignals rest → (pChannelInfo, true) ∈ rest → T pChannelInfo;
  flags_goroutines :
    Forall (λ g, EvDispatch (g_name g) (g_persisted g) ∈ trace σ) (goroutines σ);
  flags_dispatch : ∀ name, EvDispatch name true ∈ trace σ → triggered T name;
  flags_sync : ∀ operator persisted,
    EvSync operator persisted ∈ trace σ →
    EvDispatch (Name (Channel operator)) persisted ∈ trace σ;
}.

(** The identities for which a run has called [TriggerSync(_, true)]. *)
Definition triggered_in (acts : list Action) (pChannelInfo : PChannelInfo) : Prop :=
  ACall (CallTriggerSync pChannelInfo true) ∈ acts.

(** A is registered; a trigger with flag [true] for A is drained, dispatched
    and served. *)
Definition sched_trigger : list Action :=
  [ACall (CallRegisterSyncOperator opA); ACall (CallTriggerSync chA true);
   ALoopWake [(chA, true)]; ALoopNext; ALoopNext; AGo 0].

Definition state_trigger : System :=
  Eval vm_compute in
    default NewTimeTickSyncInspector (run NewTimeTickSyncInspector sched_trigger).

(** A caller closes the inspector while [background] waits at its [select]
    and nothing is in flight. *)
Definition close_schedule (caller : nat) : list Action :=
  [AClose caller; ALoopShutdown; AClose caller; AClose caller].

Definition is_call (a : Action) : bool :=
  match a with ACall _ => true | _ => false end.

(** Registrations and triggers only, then nothing. *)
Definition sched_calls : list Action :=
  [ACall (CallRegisterSyncOperator opA); ACall (CallTriggerSync chA true);
   ACall (CallMustGetOperator chB); ACall (CallUnregisterSyncOperator opB)].

(** ** What a pair of triggers leads to *)

















(** * Proofs *)

Section pool.
Implicit Types (w : gset string) (gs : list Goroutine) (g : Goroutine).

Lemma pool_inv_nil : pool_inv ∅ [].
Proof.
  split.
  - intros n; split; [set_solver|]. by intros (i & g & Hi & _).
  - by intros i j g h Hi.
Qed.

Lemma pool_inv_live w gs i g g' :
  pool_inv w gs → gs !! i = Some g → g_pc g ≠ GExited →
  g_name g' = g_name g → g_pc g' ≠ GExited →
  pool_inv w (<[i := g']> gs).
Proof.
  intros [Hw Hu] Hi Hpc Hn Hpc'.
  assert (Hlt : i < length gs) by by eapply lookup_lt_Some.
  split.
  - intros n. rewrite Hw. split.
    + intros (j & h & Hj & Hnh & Hph).
      destruct (decide (i = j)) as [->|Hne].
      * exists j, g'. rewrite list_lookup_insert_eq by done. simplify_eq.
        split; [done|]. split; [congruence|done].
      * exists j, h. by rewrite list_lookup_insert_ne.
    + intros (j & h & Hj & Hnh & Hph).
      destruct (decide (i = j)) as [->|Hne].
      * rewrite list_lookup_insert_eq in Hj by done. simplify_eq.
        exists j, g. split; [done|]. split; [congruence|done].
      * rewrite list_lookup_insert_ne in Hj by done. eauto.
  - intros j k h1 h2 Hj Hk Hp1 Hp2 Hnn.
    destruct (decide (j = k)) as [|Hjk]; [done|].
    destruct (decide (i = j)) as [Hij|Hij].
    + subst j. rewrite list_lookup_insert_eq in Hj by done.
      rewrite list_lookup_insert_ne in Hk by done. simplify_eq.
      apply (Hu i k g h2); congruence.
    + rewrite list_lookup_insert_ne in Hj by done.
      destruct (decide (i = k)) as [Hik|Hik].
      * subst k. rewrite list_lookup_insert_eq in Hk by done. simplify_eq.
        apply (Hu j i h1 g); congruence.
      * rewrite list_lookup_insert_ne in Hk by done. eauto.
Qed.

Lemma pool_inv_exit w gs i g g' :
  pool_inv w gs → gs !! i = Some g → g_pc g ≠ GExited →
  g_pc g' = GExited →
  pool_inv (w ∖ {[g_name g]}) (<[i := g']> gs).
Proof.
  intros [Hw Hu] Hi Hpc Hpc'.
  assert (Hlt : i < length gs) by by eapply lookup_lt_Some.
  split.
  - intros n. rewrite elem_of_difference, Hw, not_elem_of_singleton. split.
    + intros [(j & h & Hj & Hnh & Hph) Hne].
      exists j, h. rewrite list_lookup_insert_ne; [done|]. intros ->.
      simplify_eq.
    + intros (j & h & Hj & Hnh & Hph).
      destruct (decide (i = j)) as [->|Hne].
      { rewrite list_lookup_insert_eq in Hj by done. simplify_eq. }
      rewrite list_lookup_insert_ne in Hj by done.
      split; [eauto|]. intros ->. apply Hne.
      by apply (Hu i j g h).
  - intros j k h1 h2 Hj Hk Hp1 Hp2 Hnn.
    destruct (decide (i = j)) as [->|Hij].
    { rewrite list_lookup_insert_eq in Hj by done. simplify_eq. }
    destruct (decide (i = k)) as [->|Hik].
    { rewrite list_lookup_insert_eq in Hk by done. simplify_eq. }
    rewrite list_lookup_insert_ne in Hj by done.
    rewrite list_lookup_insert_ne in Hk by done. eauto.
Qed.

Lemma pool_inv_launch w gs g :
  pool_inv w gs → g_name g ∉ w → g_pc g ≠ GExited →
  pool_inv ({[g_name g]} ∪ w) (gs ++ [g]).
Proof.
  intros [Hw Hu] Hfresh Hpc. split.
  - intros n. rewrite elem_of_union, elem_of_singleton, Hw. split.
    + intros [->|(j & h & Hj & Hnh & Hph)].
      * exists (length gs), g. by rewrite list_lookup_middle.
      * exists j, h. rewrite lookup_app_l by by eapply lookup_lt_Some. done.
    + intros (j & h & Hj & Hnh & Hph).
      apply lookup_snoc_Some in Hj as [[_ Hj]|[-> ->]]; [|by left].
      right. eauto.
  - intros j k h1 h2 Hj Hk Hp1 Hp2 Hnn.
    apply lookup_snoc_Some in Hj as [[_ Hj]|[-> ->]];
      apply lookup_snoc_Some in Hk as [[_ Hk]|[-> ->]]; [eauto| | |done].
    + exfalso. apply Hfresh, Hw. exists j, h1. by rewrite <-Hnn.
    + exfalso. apply Hfresh, Hw. exists k, h2. by rewrite Hnn.
Qed.

Lemma count_tracked_app gs g :
  count_tracked (gs ++ [g]) = count_tracked gs + (if tracked g then 1 else 0).
Proof.
  unfold count_tracked. rewrite sum_list_with_app. simpl. lia.
Qed.

Lemma count_tracked_insert gs i g g' :
  gs !! i = Some g →
  count_tracked (<[i := g']> gs) + (if tracked g then 1 else 0)
  = count_tracked gs + (if tracked g' then 1 else 0).
Proof.
  unfold count_tracked. revert i. induction gs as [|h gs IH]; intros [|i] Hi; simplify_eq/=.
  - lia.
  - specialize (IH i Hi). lia.
Qed.
End pool.

(** *** The public methods touch the registry and the accumulator only *)

Lemma run_call_frame c s :
  taskNotifier (run_call c s).2 = taskNotifier s ∧
  wg (run_call c s).2 = wg s ∧
  working (run_call c s).2 = working s.
Proof.
  destruct c as [ch p|ch|op|op]; unfold run_call, TriggerSync, MustGetOperator,
    RegisterSyncOperator, UnregisterSyncOperator, bind, operators_Get,
    operators_GetOrInsert, operators_GetAndRemove, typeutil.Get,
    typeutil.GetOrInsert, typeutil.GetAndRemove, ret, panic; simpl.
  - done.
  - by destruct (operators s !! Name ch).
  - by destruct (operators s !! Name (Channel op)).
  - by destruct (operators s !! Name (Channel op)).
Qed.

(** *** [asyncSync] either drops the request or launches one goroutine *)

Lemma asyncSync_dropped pchannelName persisted σ :
  pchannelName ∈ working (insp σ) → asyncSync pchannelName persisted σ = σ.
Proof.
  intros Hin. unfold asyncSync, typeutil.Insert. by rewrite decide_True.
Qed.

Lemma asyncSync_launched pchannelName persisted σ :
  pchannelName ∉ working (insp σ) →
  asyncSync pchannelName persisted σ =
    set_goroutines (λ gs, gs ++ [launched pchannelName persisted])
      (set_insp (λ s, set_wg S (set_working (λ w, {[pchannelName]} ∪ w) s)) σ).
Proof.
  intros Hin. unfold asyncSync, typeutil.Insert. by rewrite decide_False.
Qed.

Lemma asyncSync_cases pchannelName persisted σ :
  (pchannelName ∈ working (insp σ) ∧ asyncSync pchannelName persisted σ = σ) ∨
  ((pchannelName ∉ working (insp σ)) ∧
   asyncSync pchannelName persisted σ =
     set_goroutines (λ gs, gs ++ [launched pchannelName persisted])
       (set_insp (λ s, set_wg S (set_working (λ w, {[pchannelName]} ∪ w) s)) σ)).
Proof.
  destruct (decide (pchannelName ∈ working (insp σ))) as [Hin|Hin].
  - left. eauto using asyncSync_dropped.
  - right. eauto using asyncSync_launched.
Qed.

Lemma asyncSync_loop pchannelName persisted σ :
  loop (asyncSync pchannelName persisted σ) = loop σ.
Proof.
  by destruct (asyncSync_cases pchannelName persisted σ) as [[_ ->]|[_ ->]].
Qed.

Lemma asyncSync_trace pchannelName persisted σ :
  trace (asyncSync pchannelName persisted σ) = trace σ.
Proof.
  by destruct (asyncSync_cases pchannelName persisted σ) as [[_ ->]|[_ ->]].
Qed.

Lemma asyncSync_crashed pchannelName persisted σ :
  crashed (asyncSync pchannelName persisted σ) = crashed σ.
Proof.
  by destruct (asyncSync_cases pchannelName persisted σ) as [[_ ->]|[_ ->]].
Qed.

Lemma asyncSync_operators pchannelName persisted σ :
  operators (insp (asyncSync pchannelName persisted σ)) = operators (insp σ).
Proof.
  by destruct (asyncSync_cases pchannelName persisted σ) as [[_ ->]|[_ ->]].
Qed.

Lemma inv_asyncSync pchannelName persisted σ :
  inv σ → inv (asyncSync pchannelName persisted σ).
Proof.
  intros [Hp Hwg Hf Hc].
  destruct (asyncSync_cases pchannelName persisted σ) as [[_ ->]|[Hin ->]]; [done|].
  constructor; simpl; try done.
  - by apply (pool_inv_launch _ _ (launched pchannelName persisted)).
  - rewrite count_tracked_app. simpl. lia.
Qed.

(** The invariant speaks of neither the trace nor, outside [LReturned], of
    the position of the loop. *)
Lemma inv_emit e σ : inv σ → inv (emit e σ).
Proof. by intros []. Qed.

Lemma inv_set_loop pc σ :
  inv σ → loop σ ≠ LReturned → pc ≠ LReturned → inv (set_loop pc σ).
Proof.
  intros [Hp Hwg Hf Hc] Hl Hpc. constructor; simpl; try done.
  rewrite Hf. split; intros ?; congruence.
Qed.

Lemma inv_crash σ : inv σ → inv (crash σ).
Proof. by intros []. Qed.

Lemma inv_new : inv NewTimeTickSyncInspector.
Proof.
  constructor; simpl.
  - apply pool_inv_nil.
  - done.
  - done.
  - intros c pc Hc. by rewrite lookup_empty in Hc.
Qed.

Lemma inv_goroutine_step i a σ σ' :
  inv σ → goroutine_step i a σ = Some σ' → inv σ'.
Proof.
  intros [Hp Hwg Hf Hc]. unfold goroutine_step.
  destruct (goroutines σ !! i) as [g|] eqn:Hi; [|done].
  pose proof (count_tracked_insert (goroutines σ) i g) as Hcnt.
  destruct (g_pc g) eqn:Hpc, a; try done.
  - unfold typeutil.Get. destruct (operators (insp σ) !! g_name g) as [op|];
      intros [= <-]; constructor; simpl; try done.
    + eapply pool_inv_live; eauto; simpl; congruence.
    + specialize (Hcnt (set_pc (GSyncing op) g) Hi). unfold tracked in Hcnt.
      simpl in Hcnt. rewrite Hpc in Hcnt. lia.
    + eapply pool_inv_live; eauto; simpl; congruence.
    + specialize (Hcnt (set_pc GDeferDone g) Hi). unfold tracked in Hcnt.
      simpl in Hcnt. rewrite Hpc in Hcnt. lia.
  - intros [= <-]; constructor; simpl; try done.
    + eapply pool_inv_live; eauto; simpl; congruence.
    + specialize (Hcnt (set_pc GDeferDone g) Hi). unfold tracked in Hcnt.
      simpl in Hcnt. rewrite Hpc in Hcnt. lia.
  - intros [= <-]; constructor; simpl; try done.
    + eapply pool_inv_live; eauto; simpl; congruence.
    + specialize (Hcnt (set_pc GDeferDone (set_panicking g)) Hi).
      unfold tracked in Hcnt. simpl in Hcnt. rewrite Hpc in Hcnt. lia.
  - destruct (wg (insp σ)) as [|n] eqn:Hn; intros [= <-].
    { apply inv_crash. constructor; try done. by rewrite Hn. }
    constructor; simpl; try done.
    + eapply pool_inv_live; eauto; simpl; congruence.
    + specialize (Hcnt (set_pc GDeferRemove g) Hi). unfold tracked in Hcnt.
      simpl in Hcnt. rewrite Hpc in Hcnt. lia.
  - intros [= <-].
    assert (inv (set_goroutines <[i := set_pc GExited g]>
                   (set_insp (set_working (typeutil.Remove (g_name g))) σ))).
    { constructor; simpl; try done.
      + eapply pool_inv_exit; eauto; simpl; congruence.
      + specialize (Hcnt (set_pc GExited g) Hi). unfold tracked in Hcnt.
        simpl in Hcnt. rewrite Hpc in Hcnt. lia. }
    destruct (g_panicking g); [by apply inv_crash|done].
Qed.

Lemma inv_step σ a σ' : inv σ → step σ a = Some σ' → inv σ'.
Proof.
  intros Hinv. unfold step. destruct (crashed σ); [done|].
  destruct a as [c|caller| |order|order| |i|i|i];
    try (by apply inv_goroutine_step).
  - intros [= <-]. destruct Hinv as [Hp Hwg Hf Hc].
    destruct (run_call_frame c (insp σ)) as (Ht & Hg & Hw).
    constructor; simpl; rewrite ?Ht, ?Hg, ?Hw; done.
  - unfold Close_step. destruct Hinv as [Hp Hwg Hf Hc].
    destruct (closers σ !! caller) as [[]|] eqn:Hcl.
    + destruct (syncutil.finished (taskNotifier (insp σ))) eqn:Hfin; [|done].
      intros [= <-]. constructor; simpl; rewrite ?Hfin; done.
    + destruct (decide (wg (insp σ) = 0)) as [Hz|]; [|done].
      intros [= <-]. constructor; simpl; try done.
      intros c pc. rewrite lookup_insert. case_decide; [|by eauto].
      intros _ _. by eapply Hc.
    + done.
    + intros [= <-]. constructor; simpl; try done.
      intros c pc. rewrite lookup_insert. case_decide; [|by eauto].
      by intros [= <-] Hne.
  - unfold background_shutdown. destruct Hinv as [Hp Hwg Hf Hc].
    destruct (loop σ) eqn:Hl; try done.
    destruct (syncutil.ctx_done _); [|done]. intros [= <-].
    constructor; simpl; try done.
  - unfold background_tick. destruct (loop σ) eqn:Hl; try done.
    destruct (typeutil.Range_order _ _); [|done]. intros [= <-].
    apply inv_set_loop; [done|congruence|done].
  - unfold background_wake. destruct (loop σ) eqn:Hl; try done.
    destruct (syncNotifier.WaitChan_ready _); [|done]. simpl.
    case_decide; [|done]. intros [= <-].
    apply inv_set_loop; [|simpl; congruence|done].
    by destruct Hinv.
  - unfold background_next.
    destruct (loop σ) as [|[|name rest]|[|[pchannel persisted] rest]|] eqn:Hl;
      try done; intros [= <-].
    + apply inv_set_loop; [done|congruence|done].
    + apply inv_set_loop; [|rewrite asyncSync_loop; simpl; congruence|done].
      by apply inv_asyncSync, inv_emit.
    + apply inv_set_loop; [done|congruence|done].
    + apply inv_set_loop; [|rewrite asyncSync_loop; simpl; congruence|done].
      by apply inv_asyncSync, inv_emit.
Qed.

Lemma run_app σ acts1 acts2 :
  run σ (acts1 ++ acts2) = run σ acts1 ≫= λ σ', run σ' acts2.
Proof.
  revert σ. induction acts1 as [|a acts1 IH]; intros σ; simpl; [done|].
  destruct (step σ a); simpl; eauto.
Qed.

Lemma inv_run acts σ σ' : inv σ → run σ acts = Some σ' → inv σ'.
Proof.
  revert σ. induction acts as [|a acts IH]; intros σ Hinv; simpl.
  - by intros [= <-].
  - destruct (step σ a) as [σ1|] eqn:Hs; [|done]. eauto using inv_step.
Qed.

Lemma run_reachable acts σ :
  run NewTimeTickSyncInspector acts = Some σ → reachable σ.
Proof.
  revert σ. induction acts as [|a acts IH] using rev_ind; intros σ.
  - intros [= <-]. constructor.
  - rewrite run_app. destruct (run _ acts) as [σ1|]; [|done]. simpl.
    destruct (step σ1 a) as [σ2|] eqn:Hs; [|done]. intros [= <-].
    eapply reachable_step; eauto.
Qed.

Lemma reachable_run σ :
  reachable σ → ∃ acts, run NewTimeTickSyncInspector acts = Some σ.
Proof.
  induction 1 as [|σ a σ' _ [acts Hacts] Hs].
  - by exists [].
  - exists (acts ++ [a]). rewrite run_app, Hacts. simpl. by rewrite Hs.
Qed.

Lemma reachable_inv σ : reachable σ → inv σ.
Proof. induction 1; eauto using inv_new, inv_step. Qed.

(** *** Counting the executions of one channel *)

Lemma filter_length_unique {A} (P : A → Prop) `{!∀ x, Decision (P x)} (l : list A) :
  (∀ i j x y, l !! i = Some x → l !! j = Some y → P x → P y → i = j) →
  length (filter P l) ≤ 1.
Proof.
  induction l as [|x l IH]; intros Hu; simpl; [lia|].
  rewrite filter_cons. destruct (decide (P x)) as [Hx|Hx]; simpl.
  - destruct (filter P l) as [|y k] eqn:Hf; simpl; [lia|]. exfalso.
    assert (y ∈ filter P l) as Hy by (rewrite Hf; left).
    apply list_elem_of_filter in Hy as [Hpy Hy].
    apply list_elem_of_lookup in Hy as [j Hj].
    by specialize (Hu 0 (S j) x y eq_refl Hj Hx Hpy).
  - apply IH. intros i j y z Hi Hj Hy Hz.
    by specialize (Hu (S i) (S j) y z Hi Hj Hy Hz) as [= ->].
Qed.

Lemma filter_length_pos {A} (P : A → Prop) `{!∀ x, Decision (P x)} (l : list A) :
  0 < length (filter P l) ↔ ∃ i x, l !! i = Some x ∧ P x.
Proof.
  split.
  - destruct (filter P l) as [|x k] eqn:Hf; simpl; [lia|]. intros _.
    assert (x ∈ filter P l) as Hx by (rewrite Hf; left).
    apply list_elem_of_filter in Hx as [Hpx Hx].
    apply list_elem_of_lookup in Hx as [i Hi]. eauto.
  - intros (i & x & Hi & Hx).
    assert (x ∈ filter P l) as Hin.
    { apply list_elem_of_filter. split; [done|]. by eapply list_elem_of_lookup_2. }
    destruct (filter P l); [by apply elem_of_nil in Hin|simpl; lia].
Qed.

Lemma in_flight_true g : in_flight g = true ↔ g_pc g ≠ GExited.
Proof. unfold in_flight. apply bool_decide_eq_true. Qed.

Lemma pool_inv_executions σ C :
  pool_inv (working (insp σ)) (goroutines σ) →
  length (executions C σ) ≤ 1 ∧
  (C ∈ working (insp σ) ↔ length (executions C σ) = 1).
Proof.
  intros [Hw Hu]. unfold executions.
  assert (length (filter (λ g, g_name g = C ∧ in_flight g = true) (goroutines σ)) ≤ 1)
    as Hle.
  { apply filter_length_unique. intros i j g h Hi Hj [Hg Hg'] [Hh Hh'].
    apply in_flight_true in Hg', Hh'. apply (Hu i j g h); congruence. }
  split; [done|]. rewrite Hw. split.
  - intros (i & g & Hi & Hn & Hpc).
    assert (0 < length (filter (λ g, g_name g = C ∧ in_flight g = true) (goroutines σ)));
      [|lia].
    apply filter_length_pos. exists i, g. by rewrite in_flight_true.
  - intros Hone.
    assert (0 < length (filter (λ g, g_name g = C ∧ in_flight g = true) (goroutines σ)))
      as Hpos by lia.
    apply filter_length_pos in Hpos as (i & g & Hi & Hn & Hpc).
    apply in_flight_true in Hpc. eauto.
Qed.

(** ** C1: one execution per channel, redundant requests are dropped *)

(** C1.  In every state the inspector can reach, a channel name has at most
    one execution in flight, and it is a member of the in-flight set [working]
    exactly when it has one.  A dispatch request ([asyncSync]) for a member
    returns at once and leaves the whole system as it is: no goroutine is
    launched, nothing is queued; the iteration of [background] that makes the
    request only records it and moves on. *)
Theorem C1_single_execution_per_channel acts σ C :
  run NewTimeTickSyncInspector acts = Some σ →
  length (executions C σ) ≤ 1 ∧
  (C ∈ working (insp σ) ↔ length (executions C σ) = 1) ∧
  (C ∈ working (insp σ) →
   (∀ persisted, asyncSync C persisted σ = σ) ∧
   (∀ rest, crashed σ = false → loop σ = LRange (C :: rest) →
      step σ ALoopNext
        = Some (set_loop (LRange rest) (emit (EvDispatch C false) σ))) ∧
   (∀ pchannel persisted rest, Name pchannel = C → crashed σ = false →
      loop σ = LSignals ((pchannel, persisted) :: rest) →
      step σ ALoopNext
        = Some (set_loop (LSignals rest) (emit (EvDispatch C persisted) σ)))).
Proof.
  intros Hrun. apply run_reachable, reachable_inv in Hrun as [Hp _ _ _].
  destruct (pool_inv_executions σ C Hp) as [Hle Hiff].
  split; [done|]. split; [done|]. intros Hin.
  split; [intros persisted; by apply asyncSync_dropped|]. split.
  - intros rest Hcr Hl. unfold step, background_next. rewrite Hcr, Hl.
    by rewrite asyncSync_dropped.
  - intros pchannel persisted rest <- Hcr Hl.
    unfold step, background_next. rewrite Hcr, Hl.
    by rewrite asyncSync_dropped.
Qed.

Lemma C1_single_execution_per_channel_witness :
  run NewTimeTickSyncInspector sched_retick = Some state_retick ∧
  length (executions "A" state_retick) = 1 ∧
  (∀ persisted, asyncSync "A" persisted state_retick = state_retick) ∧
  step state_retick ALoopNext
    = Some (set_loop (LRange []) (emit (EvDispatch "A" false) state_retick)).
Proof.
  assert (run NewTimeTickSyncInspector sched_retick = Some state_retick) as Hrun
    by (vm_compute; reflexivity).
  assert ("A"%string ∈ working (insp state_retick)) as Hin
    by (vm_compute; reflexivity).
  destruct (C1_single_execution_per_channel sched_retick state_retick "A" Hrun)
    as (_ & Hiff & Hdrop).
  destruct (Hdrop Hin) as (Hsame & Hrange & _).
  split; [exact Hrun|]. split; [exact (proj1 Hiff Hin)|]. split; [exact Hsame|].
  apply Hrange; reflexivity.
Defined.

(** ** C3: shutdown *)

Lemma dispatches_snoc_sync tr operator persisted :
  dispatches (tr ++ [EvSync operator persisted]) = dispatches tr.
Proof.
  unfold dispatches. rewrite filter_app, filter_cons_False, filter_nil by done.
  apply app_nil_r.
Qed.

Lemma asyncSync_closers pchannelName persisted σ :
  closers (asyncSync pchannelName persisted σ) = closers σ.
Proof.
  by destruct (asyncSync_cases pchannelName persisted σ) as [[_ ->]|[_ ->]].
Qed.

(** What a step of a goroutine leaves alone. *)
Lemma goroutine_step_frame i a σ σ' :
  goroutine_step i a σ = Some σ' →
  loop σ' = loop σ ∧ closers σ' = closers σ ∧
  dispatches (trace σ') = dispatches (trace σ) ∧
  length (goroutines σ') = length (goroutines σ) ∧
  wg (insp σ') ≤ wg (insp σ) ∧
  operators (insp σ') = operators (insp σ).
Proof.
  unfold goroutine_step. destruct (goroutines σ !! i) as [g|]; [|done].
  destruct (g_pc g), a; try done.
  - unfold typeutil.Get. destruct (operators (insp σ) !! g_name g);
      intros [= <-]; simpl; rewrite ?dispatches_snoc_sync, length_insert; done.
  - intros [= <-]; simpl. by rewrite length_insert.
  - intros [= <-]; simpl. by rewrite length_insert.
  - destruct (wg (insp σ)) as [|n] eqn:Hn; intros [= <-]; simpl.
    + repeat split; try done. lia.
    + rewrite length_insert. repeat split; try done. lia.
  - intros [= <-]. destruct (g_panicking g); simpl; by rewrite length_insert.
Qed.

(** Once [background] has returned, no step issues a dispatch request or
    starts a goroutine. *)
Lemma step_after_return σ a σ' :
  loop σ = LReturned → step σ a = Some σ' →
  loop σ' = LReturned ∧
  dispatches (trace σ') = dispatches (trace σ) ∧
  length (goroutines σ') = length (goroutines σ) ∧
  wg (insp σ') ≤ wg (insp σ).
Proof.
  intros Hl. unfold step. destruct (crashed σ); [done|].
  destruct a as [c|caller| |order|order| |i|i|i]; simpl.
  - intros [= <-]. simpl. destruct (run_call_frame c (insp σ)) as (_ & -> & _). done.
  - unfold Close_step. destruct (closers σ !! caller) as [[]|]; try done.
    + destruct (syncutil.finished _); [|done]. by intros [= <-].
    + destruct (decide _); [|done]. by intros [= <-].
    + by intros [= <-].
  - unfold background_shutdown. by rewrite Hl.
  - unfold background_tick. by rewrite Hl.
  - unfold background_wake. by rewrite Hl.
  - unfold background_next. by rewrite Hl.
  - intros (-> & _ & ? & ? & ? & _)%goroutine_step_frame. done.
  - intros (-> & _ & ? & ? & ? & _)%goroutine_step_frame. done.
  - intros (-> & _ & ? & ? & ? & _)%goroutine_step_frame. done.
Qed.

Lemma run_after_return acts σ σ' :
  loop σ = LReturned → run σ acts = Some σ' →
  loop σ' = LReturned ∧
  dispatches (trace σ') = dispatches (trace σ) ∧
  length (goroutines σ') = length (goroutines σ) ∧
  wg (insp σ') ≤ wg (insp σ).
Proof.
  revert σ. induction acts as [|a acts IH]; intros σ Hl; simpl.
  - by intros [= <-].
  - destruct (step σ a) as [σ1|] eqn:Hs; [|done]. intros Hrun.
    destruct (step_after_return _ _ _ Hl Hs) as (Hl1 & Hd1 & Hg1 & Hw1).
    destruct (IH _ Hl1 Hrun) as (? & ? & ? & ?).
    repeat split; [done|congruence|congruence|lia].
Qed.

(** A caller of [Close] gets to [CReturned] only through [wg.Wait()] seeing a
    zero counter. *)
Lemma step_closers_returned σ a σ' c :
  step σ a = Some σ' → closers σ' !! c = Some CReturned →
  closers σ !! c = Some CReturned ∨ wg (insp σ') = 0.
Proof.
  unfold step. destruct (crashed σ); [done|].
  destruct a as [call|caller| |order|order| |i|i|i]; simpl.
  - intros [= <-]. simpl. by left.
  - unfold Close_step. destruct (closers σ !! caller) as [[]|] eqn:Hc; try done.
    + destruct (syncutil.finished _); [|done]. intros [= <-]. simpl.
      rewrite lookup_insert. case_decide; [done|by left].
    + destruct (decide _) as [Hz|]; [|done]. intros [= <-]. simpl. by right.
    + intros [= <-]. simpl. rewrite lookup_insert. case_decide; [done|by left].
  - unfold background_shutdown. destruct (loop σ); try done.
    destruct (syncutil.ctx_done _); [|done]. intros [= <-]. by left.
  - unfold background_tick. destruct (loop σ); try done.
    destruct (typeutil.Range_order _ _); [|done]. intros [= <-]. by left.
  - unfold background_wake. destruct (loop σ); try done.
    destruct (syncNotifier.WaitChan_ready _); [|done]. simpl.
    destruct (decide _); [|done]. intros [= <-]. by left.
  - unfold background_next.
    destruct (loop σ) as [|[|name rest]|[|[pchannel persisted] rest]|];
      try done; intros [= <-]; simpl; rewrite ?asyncSync_closers; by left.
  - intros (_ & -> & _)%goroutine_step_frame. by left.
  - intros (_ & -> & _)%goroutine_step_frame. by left.
  - intros (_ & -> & _)%goroutine_step_frame. by left.
Qed.

Lemma reachable_returned_wg σ c :
  reachable σ → closers σ !! c = Some CReturned → wg (insp σ) = 0.
Proof.
  intros Hreach. revert c. induction Hreach as [|σ a σ' Hreach IH Hs]; intros c.
  - simpl. by rewrite lookup_empty.
  - intros Hc. destruct (step_closers_returned _ _ _ _ Hs Hc) as [Hold|Hz]; [|done].
    pose proof (reachable_inv _ Hreach) as [_ _ Hf Hcl].
    assert (loop σ = LReturned) as Hl.
    { apply Hf. by eapply Hcl. }
    destruct (step_after_return _ _ _ Hl Hs) as (_ & _ & _ & Hle).
    specialize (IH c Hold). lia.
Qed.

Lemma count_tracked_zero gs g :
  count_tracked gs = 0 → g ∈ gs → sync_returned g.
Proof.
  unfold count_tracked, sync_returned.
  induction gs as [|h gs IH]; simpl; intros Hz Hin.
  - by apply elem_of_nil in Hin.
  - apply elem_of_cons in Hin as [->|Hin]; [|apply IH; [lia|done]].
    unfold tracked in Hz. destruct (g_pc h); simpl in Hz; try lia; eauto.
Qed.

(** C3.  In every reachable state: (1) the shutdown case of the [select]
    makes [background] return; (2) once it has returned, no later step of any
    thread issues a dispatch request or starts a goroutine; (3) if a call of
    [Close] has returned, [background] has returned and the [Sync] call of
    every goroutine ever launched has returned. *)
Theorem C3_close_waits_for_loop_and_syncs acts σ :
  run NewTimeTickSyncInspector acts = Some σ →
  (∀ σ', step σ ALoopShutdown = Some σ' → loop σ' = LReturned) ∧
  (loop σ = LReturned → ∀ acts' σ', run σ acts' = Some σ' →
     loop σ' = LReturned ∧
     dispatches (trace σ') = dispatches (trace σ) ∧
     length (goroutines σ') = length (goroutines σ)) ∧
  (∀ caller, closers σ !! caller = Some CReturned →
     loop σ = LReturned ∧ ∀ g, g ∈ goroutines σ → sync_returned g).
Proof.
  intros Hreach%run_reachable. split; [|split].
  - intros σ'. unfold step, background_shutdown.
    destruct (crashed σ); [done|]. destruct (loop σ); try done.
    destruct (syncutil.ctx_done _); [|done]. by intros [= <-].
  - intros Hl acts' σ' Hrun.
    destruct (run_after_return _ _ _ Hl Hrun) as (? & ? & ? & _). done.
  - intros caller Hc.
    pose proof (reachable_inv _ Hreach) as [_ Hwg Hf Hcl]. split.
    + apply Hf. by eapply Hcl.
    + intros g Hg. eapply count_tracked_zero; [|done].
      rewrite <-Hwg. by eapply reachable_returned_wg.
Qed.

Lemma C3_close_waits_for_loop_and_syncs_witness :
  run NewTimeTickSyncInspector sched_close = Some state_close ∧
  closers state_close !! 0 = Some CReturned ∧
  (∀ acts' σ', run state_close acts' = Some σ' →
     loop σ' = LReturned ∧
     dispatches (trace σ') = dispatches (trace state_close) ∧
     length (goroutines σ') = length (goroutines state_close)) ∧
  loop state_close = LReturned ∧
  (∀ g, g ∈ goroutines state_close → sync_returned g).
Proof.
  assert (run NewTimeTickSyncInspector sched_close = Some state_close) as Hrun
    by (vm_compute; reflexivity).
  assert (closers state_close !! 0 = Some CReturned) as Hret
    by (vm_compute; reflexivity).
  destruct (C3_close_waits_for_loop_and_syncs sched_close state_close Hrun)
    as (_ & Hafter & Hclose).
  split; [exact Hrun|]. split; [exact Hret|].
  split; [exact (Hafter eq_refl)|]. exact (Hclose 0 Hret).
Defined.

(** ** C4, C8, C9: the registry methods *)

Lemma set_operators_id s : set_operators (λ _, operators s) s = s.
Proof. by destruct s. Qed.

(** C4.  [RegisterSyncOperator] stores the operator under the name of its
    channel when that name is free.  When the name is taken it panics, and
    the inspector it leaves is the one it found: the operator registered
    before is still the one mapped. *)
Theorem C4_register_stores_or_panics operator s :
  match operators s !! Name (Channel operator) with
  | None =>
      RegisterSyncOperator operator s
        = (Returned tt, set_operators <[Name (Channel operator) := operator]> s) ∧
      operators (RegisterSyncOperator operator s).2 !! Name (Channel operator)
        = Some operator
  | Some old =>
      RegisterSyncOperator operator s
        = (Panicked "sync operator already exists, critical bug in code", s) ∧
      operators (RegisterSyncOperator operator s).2 = operators s ∧
      operators (RegisterSyncOperator operator s).2 !! Name (Channel operator)
        = Some old
  end.
Proof.
  unfold RegisterSyncOperator, bind, operators_GetOrInsert, typeutil.GetOrInsert.
  destruct (operators s !! Name (Channel operator)) as [old|] eqn:Hl; simpl.
  - unfold panic. rewrite set_operators_id. done.
  - split; [done|]. apply lookup_insert_eq.
Qed.

(** C8.  [UnregisterSyncOperator] deletes the entry of the operator's channel
    name when there is one, and panics, changing nothing, when there is
    none. *)
Theorem C8_unregister_removes_or_panics operator s :
  match operators s !! Name (Channel operator) with
  | Some _ =>
      UnregisterSyncOperator operator s
        = (Returned tt, set_operators (delete (Name (Channel operator))) s) ∧
      operators (UnregisterSyncOperator operator s).2 !! Name (Channel operator)
        = None
  | None =>
      UnregisterSyncOperator operator s
        = (Panicked "sync operator not found, critical bug in code", s)
  end.
Proof.
  unfold UnregisterSyncOperator, bind, operators_GetAndRemove, typeutil.GetAndRemove.
  destruct (operators s !! Name (Channel operator)) as [old|] eqn:Hl; simpl.
  - split; [done|]. apply lookup_delete_eq.
  - unfold panic. by rewrite set_operators_id.
Qed.

(** C9.  [MustGetOperator] returns the operator registered under the name of
    the channel, and panics exactly when there is none; its only results are
    an operator or a panic, and the inspector is left as it was. *)
Theorem C9_must_get_operator pChannelInfo s :
  match operators s !! Name pChannelInfo with
  | Some operator => MustGetOperator pChannelInfo s = (Returned operator, s)
  | None =>
      MustGetOperator pChannelInfo s
        = (Panicked "sync operator not found, critical bug in code", s)
  end ∧
  ((∃ msg, (MustGetOperator pChannelInfo s).1 = Panicked msg)
   ↔ operators s !! Name pChannelInfo = None).
Proof.
  unfold MustGetOperator, bind, operators_Get, typeutil.Get, ret, panic.
  destruct (operators s !! Name pChannelInfo) as [operator|] eqn:Hl; simpl.
  - split; [done|]. split; [by intros [msg ?]|done].
  - split; [done|]. split; [done|]. intros _. eauto.
Qed.

(** ** C5, C7: what the goroutine of [asyncSync] does *)

Section goroutine.
Variable (i : nat).

Lemma complete_S panics fuel σ :
  complete (S fuel) i panics σ =
    match goroutines σ !! i with
    | None => None
    | Some g =>
        match g_pc g with
        | GExited => Some σ
        | GSyncing _ =>
            step σ (if panics then ASyncPanic i else ASyncReturn i)
              ≫= complete fuel i panics
        | GStart | GDeferDone | GDeferRemove =>
            step σ (AGo i) ≫= complete fuel i panics
        end
    end.
Proof. done. Qed.

Lemma complete_exited panics fuel σ g :
  goroutines σ !! i = Some g → g_pc g = GExited →
  complete (S fuel) i panics σ = Some σ.
Proof. intros Hi Hpc. by rewrite complete_S, Hi, Hpc. Qed.

Lemma complete_from_remove panics n σ g :
  crashed σ = false → goroutines σ !! i = Some g → g_pc g = GDeferRemove →
  ∃ σ', complete (2 + n) i panics σ = Some σ' ∧
    working (insp σ') = working (insp σ) ∖ {[g_name g]} ∧ exited i σ' ∧
    trace σ' = trace σ ∧ crashed σ' = g_panicking g ∧
    wg (insp σ') = wg (insp σ).
Proof.
  intros Hcr Hi Hpc.
  assert (Hlt : i < length (goroutines σ)) by by eapply lookup_lt_Some.
  change (2 + n) with (S (S n)). rewrite complete_S, Hi, Hpc.
  unfold step. rewrite Hcr. unfold goroutine_step. rewrite Hi, Hpc.
  cbn [mbind option_bind].
  set (σ1 := set_goroutines _ _).
  assert (goroutines σ1 !! i = Some (set_pc GExited g)) as Hi1
    by (simpl; by apply list_lookup_insert_eq).
  destruct (g_panicking g).
  - exists (crash σ1). split; [by eapply complete_exited|].
    repeat split; try done. by eexists.
  - exists σ1. split; [by eapply complete_exited|].
    repeat split; try done. by eexists.
Qed.

Lemma complete_from_done panics n σ g :
  crashed σ = false → goroutines σ !! i = Some g → g_pc g = GDeferDone →
  0 < wg (insp σ) →
  ∃ σ', complete (3 + n) i panics σ = Some σ' ∧
    working (insp σ') = working (insp σ) ∖ {[g_name g]} ∧ exited i σ' ∧
    trace σ' = trace σ ∧ crashed σ' = g_panicking g ∧
    S (wg (insp σ')) = wg (insp σ).
Proof.
  intros Hcr Hi Hpc Hwg.
  assert (Hlt : i < length (goroutines σ)) by by eapply lookup_lt_Some.
  change (3 + n) with (S (2 + n)). rewrite complete_S, Hi, Hpc. unfold step. rewrite Hcr. unfold goroutine_step.
  rewrite Hi, Hpc. destruct (wg (insp σ)) as [|k] eqn:Hk; [lia|].
  cbn [mbind option_bind].
  set (σ1 := set_goroutines _ _).
  destruct (complete_from_remove panics n σ1 (set_pc GDeferRemove g))
    as (σ' & Hrun & Hw & Hex & Htr & Hc & Hg); try done.
  { simpl. by apply list_lookup_insert_eq. }
  exists σ'. rewrite Hrun, Hw, Htr, Hc, Hg. done.
Qed.

Lemma complete_from_syncing panics n σ g operator :
  crashed σ = false → goroutines σ !! i = Some g → g_pc g = GSyncing operator →
  0 < wg (insp σ) →
  ∃ σ', complete (4 + n) i panics σ = Some σ' ∧
    working (insp σ') = working (insp σ) ∖ {[g_name g]} ∧ exited i σ' ∧
    trace σ' = trace σ ∧ crashed σ' = panics || g_panicking g ∧
    S (wg (insp σ')) = wg (insp σ).
Proof.
  intros Hcr Hi Hpc Hwg.
  assert (Hlt : i < length (goroutines σ)) by by eapply lookup_lt_Some.
  change (4 + n) with (S (3 + n)). rewrite complete_S, Hi, Hpc. unfold step. rewrite Hcr.
  destruct panics; unfold goroutine_step; rewrite Hi, Hpc;
    cbn [mbind option_bind]; set (σ1 := set_goroutines _ _).
  - destruct (complete_from_done true n σ1 (set_pc GDeferDone (set_panicking g)))
      as (σ' & Hrun & Hw & Hex & Htr & Hc & Hg); try done.
    { simpl. by apply list_lookup_insert_eq. }
    exists σ'. rewrite Hrun, Hw, Htr, Hc. done.
  - destruct (complete_from_done false n σ1 (set_pc GDeferDone g))
      as (σ' & Hrun & Hw & Hex & Htr & Hc & Hg); try done.
    { simpl. by apply list_lookup_insert_eq. }
    exists σ'. rewrite Hrun, Hw, Htr, Hc. done.
Qed.

Lemma complete_from_start panics n σ g :
  crashed σ = false → goroutines σ !! i = Some g → g_pc g = GStart →
  0 < wg (insp σ) →
  ∃ σ', complete (5 + n) i panics σ = Some σ' ∧
    working (insp σ') = working (insp σ) ∖ {[g_name g]} ∧ exited i σ' ∧
    S (wg (insp σ')) = wg (insp σ) ∧
    match operators (insp σ) !! g_name g with
    | Some operator =>
        trace σ' = trace σ ++ [EvSync operator (g_persisted g)] ∧
        crashed σ' = panics || g_panicking g
    | None => trace σ' = trace σ ∧ crashed σ' = g_panicking g
    end.
Proof.
  intros Hcr Hi Hpc Hwg.
  assert (Hlt : i < length (goroutines σ)) by by eapply lookup_lt_Some.
  change (5 + n) with (S (4 + n)). rewrite complete_S, Hi, Hpc. unfold step. rewrite Hcr. unfold goroutine_step.
  rewrite Hi, Hpc. unfold typeutil.Get.
  destruct (operators (insp σ) !! g_name g) as [operator|] eqn:Hop;
    cbn [mbind option_bind].
  - set (σ1 := emit _ _).
    destruct (complete_from_syncing panics n σ1 (set_pc (GSyncing operator) g) operator)
      as (σ' & Hrun & Hw & Hex & Htr & Hc & Hg); try done.
    { simpl. by apply list_lookup_insert_eq. }
    exists σ'. split; [exact Hrun|]. rewrite Hw, Htr, Hc. done.
  - set (σ1 := set_goroutines _ _).
    destruct (complete_from_done panics (S n) σ1 (set_pc GDeferDone g))
      as (σ' & Hrun & Hw & Hex & Htr & Hc & Hg); try done.
    { simpl. by apply list_lookup_insert_eq. }
    exists σ'. split; [exact Hrun|]. rewrite Hw, Htr, Hc. done.
Qed.
End goroutine.

Lemma inv_tracked_wg σ i g :
  inv σ → goroutines σ !! i = Some g → tracked g = true → 0 < wg (insp σ).
Proof.
  intros [_ -> _ _]. unfold count_tracked. generalize (goroutines σ). clear σ.
  intros gs. revert i. induction gs as [|h gs IH]; intros [|i] Hi Ht; simplify_eq/=.
  - rewrite Ht. lia.
  - specialize (IH i Hi Ht). lia.
Qed.

Lemma goroutine_step_panic_ok j a σ σ' :
  goroutine_step j a σ = Some σ' →
  Forall panic_ok (goroutines σ) → Forall panic_ok (goroutines σ').
Proof.
  unfold goroutine_step. destruct (goroutines σ !! j) as [h|] eqn:Hj; [|done].
  intros Hs Hall. pose proof (Forall_lookup_1 _ _ _ _ Hall Hj) as Hh.
  destruct (g_pc h) eqn:Hpc, a; try done.
  - unfold typeutil.Get in Hs. destruct (operators (insp σ) !! g_name h);
      simplify_eq/=; apply Forall_insert; try done.
    intros Hp. destruct (Hh Hp) as [Hne _]. done.
  - simplify_eq/=. apply Forall_insert; [done|]. intros _. simpl. split; done.
  - simplify_eq/=. apply Forall_insert; [done|]. intros _. simpl. split; done.
  - destruct (wg (insp σ)); simplify_eq/=; [done|].
    apply Forall_insert; [done|]. intros _. simpl. split; done.
  - simplify_eq/=. assert (Forall panic_ok (<[j := set_pc GExited h]> (goroutines σ))).
    { apply Forall_insert; [done|]. intros _. simpl. split; done. }
    by destruct (g_panicking h).
Qed.

Lemma step_panic_ok σ a σ' :
  step σ a = Some σ' →
  Forall panic_ok (goroutines σ) → Forall panic_ok (goroutines σ').
Proof.
  unfold step. destruct (crashed σ); [done|].
  destruct a as [call|caller| |order|order| |j|j|j]; simpl;
    try (by apply goroutine_step_panic_ok).
  - by intros [= <-].
  - unfold Close_step. destruct (closers σ !! caller) as [[]|]; try done.
    + destruct (syncutil.finished _); [|done]. by intros [= <-].
    + destruct (decide _); [|done]. by intros [= <-].
    + by intros [= <-].
  - unfold background_shutdown. destruct (loop σ); try done.
    destruct (syncutil.ctx_done _); [|done]. by intros [= <-].
  - unfold background_tick. destruct (loop σ); try done.
    destruct (typeutil.Range_order _ _); [|done]. by intros [= <-].
  - unfold background_wake. destruct (loop σ); try done.
    destruct (syncNotifier.WaitChan_ready _); [|done]. simpl.
    destruct (decide _); [|done]. by intros [= <-].
  - unfold background_next.
    destruct (loop σ) as [|[|name rest]|[|[pchannel persisted] rest]|];
      try done; intros [= <-]; simpl; try done; intros Hall.
    + destruct (asyncSync_cases name false (emit (EvDispatch name false) σ))
        as [[_ ->]|[_ ->]]; simpl; [done|].
      apply Forall_app; split; [done|]. by repeat constructor.
    + set (σ0 := emit _ σ).
      destruct (asyncSync_cases (Name pchannel) persisted σ0)
        as [[_ ->]|[_ ->]]; simpl; [done|].
      apply Forall_app; split; [done|]. by repeat constructor.
Qed.

Lemma reachable_panic_ok σ : reachable σ → Forall panic_ok (goroutines σ).
Proof. induction 1; [by constructor|by eapply step_panic_ok]. Qed.

(** A goroutine leaves only through [s.working.Remove(pchannelName)]. *)
Lemma goroutine_step_exits j a σ σ' i g :
  goroutine_step j a σ = Some σ' →
  goroutines σ !! i = Some g → g_pc g ≠ GExited → exited i σ' →
  g_name g ∉ working (insp σ').
Proof.
  unfold goroutine_step, exited.
  destruct (goroutines σ !! j) as [h|] eqn:Hj; [|done].
  assert (Hlt : j < length (goroutines σ)) by by eapply lookup_lt_Some.
  intros Hs Hi Hpc (g' & Hi' & Hpc').
  destruct (decide (j = i)) as [->|Hne].
  - rewrite Hi in Hj. injection Hj as <-.
    destruct (g_pc g) eqn:Hg, a; try done.
    + unfold typeutil.Get in Hs. destruct (operators (insp σ) !! g_name g);
        simplify_eq/=; (rewrite list_lookup_insert_eq in Hi' by done); by simplify_eq.
    + simplify_eq/=. rewrite list_lookup_insert_eq in Hi' by done. by simplify_eq.
    + simplify_eq/=. rewrite list_lookup_insert_eq in Hi' by done. by simplify_eq.
    + destruct (wg (insp σ)); simplify_eq/=; [congruence|].
      rewrite list_lookup_insert_eq in Hi' by done. by simplify_eq.
    + simplify_eq/=. unfold typeutil.Remove.
      destruct (g_panicking g); simpl;
        intros [_ Hne]%elem_of_difference; apply Hne; by apply elem_of_singleton.
  - exfalso. destruct (g_pc h), a; try done.
    + unfold typeutil.Get in Hs. destruct (operators (insp σ) !! g_name h);
        simplify_eq/=; (rewrite list_lookup_insert_ne in Hi' by done); congruence.
    + simplify_eq/=. (rewrite list_lookup_insert_ne in Hi' by done); congruence.
    + simplify_eq/=. (rewrite list_lookup_insert_ne in Hi' by done); congruence.
    + destruct (wg (insp σ)); simplify_eq/=; try congruence.
      (rewrite list_lookup_insert_ne in Hi' by done); congruence.
    + simplify_eq/=. destruct (g_panicking h); simpl in Hi';
        (rewrite list_lookup_insert_ne in Hi' by done); congruence.
Qed.

Lemma step_exits σ a σ' i g :
  step σ a = Some σ' →
  goroutines σ !! i = Some g → g_pc g ≠ GExited → exited i σ' →
  g_name g ∉ working (insp σ').
Proof.
  unfold step. destruct (crashed σ); [done|].
  destruct a as [call|caller| |order|order| |j|j|j]; simpl;
    try (by apply goroutine_step_exits);
    intros Hs Hi Hpc (g' & Hi' & Hpc'); exfalso.
  - simplify_eq/=; congruence.
  - unfold Close_step in Hs. destruct (closers σ !! caller) as [[]|]; try done.
    + destruct (syncutil.finished _); simplify_eq/=; congruence.
    + destruct (decide _); simplify_eq/=; congruence.
    + simplify_eq/=; congruence.
  - unfold background_shutdown in Hs. destruct (loop σ); try done.
    destruct (syncutil.ctx_done _); simplify_eq/=; congruence.
  - unfold background_tick in Hs. destruct (loop σ); try done.
    destruct (typeutil.Range_order _ _); simplify_eq/=; congruence.
  - unfold background_wake in Hs. destruct (loop σ); try done.
    destruct (syncNotifier.WaitChan_ready _); [|done]. simpl in Hs.
    destruct (decide _); simplify_eq/=; congruence.
  - assert (Hlt : i < length (goroutines σ)) by by eapply lookup_lt_Some.
    unfold background_next in Hs.
    destruct (loop σ) as [|[|name rest]|[|[pchannel persisted] rest]|];
      try done; simplify_eq/=; try congruence.
    + destruct (asyncSync_cases name false (emit (EvDispatch name false) σ))
        as [[_ Heq]|[_ Heq]]; rewrite Heq in Hi'; simpl in Hi';
        (rewrite ?lookup_app_l in Hi' by done); congruence.
    + destruct (asyncSync_cases (Name pchannel) persisted
                  (emit (EvDispatch (Name pchannel) persisted) σ))
        as [[_ Heq]|[_ Heq]]; rewrite Heq in Hi'; simpl in Hi';
        (rewrite ?lookup_app_l in Hi' by done); congruence.
Qed.

(** C5.  Take a goroutine that a reachable, running system has launched and
    that has not left yet.  Whatever the outcome ([Sync] returns, [Sync]
    panics, or no operator is found), its remaining steps run to the end of
    the deferred function, after which its channel name is not in [working];
    and in any interleaving, the step after which the goroutine has left
    leaves the name outside [working]. *)
Theorem C5_working_removed_on_every_outcome acts σ i g panics :
  run NewTimeTickSyncInspector acts = Some σ →
  crashed σ = false →
  goroutines σ !! i = Some g →
  g_pc g ≠ GExited →
  (∃ σ', complete 5 i panics σ = Some σ' ∧ exited i σ' ∧
         g_name g ∉ working (insp σ')) ∧
  (∀ a σ', step σ a = Some σ' → exited i σ' → g_name g ∉ working (insp σ')).
Proof.
  intros Hinv%run_reachable%reachable_inv Hcr Hi Hpc. split.
  - destruct (g_pc g) as [|operator| | |] eqn:Hg; [| | | |done].
    + destruct (complete_from_start i panics 0 σ g) as (σ' & Hrun & Hw & Hex & _);
        try done.
      { eapply inv_tracked_wg; [done..|]. unfold tracked. by rewrite Hg. }
      exists σ'. split; [exact Hrun|]. split; [done|]. rewrite Hw.
      apply not_elem_of_difference. right. by apply elem_of_singleton.
    + destruct (complete_from_syncing i panics 1 σ g operator)
        as (σ' & Hrun & Hw & Hex & _); try done.
      { eapply inv_tracked_wg; [done..|]. unfold tracked. by rewrite Hg. }
      exists σ'. split; [exact Hrun|]. split; [done|]. rewrite Hw.
      apply not_elem_of_difference. right. by apply elem_of_singleton.
    + destruct (complete_from_done i panics 2 σ g) as (σ' & Hrun & Hw & Hex & _);
        try done.
      { eapply inv_tracked_wg; [done..|]. unfold tracked. by rewrite Hg. }
      exists σ'. split; [exact Hrun|]. split; [done|]. rewrite Hw.
      apply not_elem_of_difference. right. by apply elem_of_singleton.
    + destruct (complete_from_remove i panics 3 σ g) as (σ' & Hrun & Hw & Hex & _);
        try done.
      exists σ'. split; [exact Hrun|]. split; [done|]. rewrite Hw.
      apply not_elem_of_difference. right. by apply elem_of_singleton.
  - intros a σ' Hs Hex. by eapply step_exits.
Qed.

(** C7.  When the goroutine looks its channel name up and the registry has no
    entry for it, the lookup step goes straight to the deferred function; the
    goroutine then runs to its end with no [Sync] call recorded, and the
    process is not brought down. *)
Theorem C7_missing_operator_is_skipped acts σ i g panics :
  run NewTimeTickSyncInspector acts = Some σ →
  crashed σ = false →
  goroutines σ !! i = Some g →
  g_pc g = GStart →
  operators (insp σ) !! g_name g = None →
  step σ (AGo i) = Some (set_goroutines <[i := set_pc GDeferDone g]> σ) ∧
  ∃ σ', complete 5 i panics σ = Some σ' ∧ exited i σ' ∧
        trace σ' = trace σ ∧ crashed σ' = false.
Proof.
  intros Hreach%run_reachable Hcr Hi Hpc Hop. split.
  - unfold step. rewrite Hcr. unfold goroutine_step, typeutil.Get.
    by rewrite Hi, Hpc, Hop.
  - pose proof (reachable_inv _ Hreach) as Hinv.
    destruct (complete_from_start i panics 0 σ g) as (σ' & Hrun & _ & Hex & _ & Hres);
      try done.
    { eapply inv_tracked_wg; [done..|]. unfold tracked. by rewrite Hpc. }
    rewrite Hop in Hres. destruct Hres as [Htr Hc].
    exists σ'. split; [exact Hrun|]. split; [done|]. split; [done|].
    rewrite Hc. destruct (g_panicking g) eqn:Hp; [|done].
    pose proof (Forall_lookup_1 _ _ _ _ (reachable_panic_ok _ Hreach) Hi) as Hok.
    by destruct (Hok Hp).
Qed.

(** ** The loop bodies of [background] *)

Lemma dispatch_set_loop pc req σ :
  dispatch req (set_loop pc σ) = set_loop pc (dispatch req σ).
Proof.
  unfold dispatch, asyncSync, typeutil.Insert. simpl.
  by destruct (decide (req.1 ∈ working (insp σ))).
Qed.

Lemma dispatch_all_set_loop pc reqs σ :
  dispatch_all reqs (set_loop pc σ) = set_loop pc (dispatch_all reqs σ).
Proof.
  revert σ. induction reqs as [|req reqs IH]; intros σ; [done|].
  unfold dispatch_all in *. simpl. by rewrite dispatch_set_loop, IH.
Qed.

Lemma dispatch_all_snoc reqs req σ :
  dispatch_all (reqs ++ [req]) σ = dispatch req (dispatch_all reqs σ).
Proof. unfold dispatch_all. by rewrite foldl_app. Qed.

Lemma dispatch_frame req σ :
  trace (dispatch req σ) = trace σ ++ [EvDispatch req.1 req.2] ∧
  crashed (dispatch req σ) = crashed σ ∧
  operators (insp (dispatch req σ)) = operators (insp σ) ∧
  closers (dispatch req σ) = closers σ ∧
  loop (dispatch req σ) = loop σ.
Proof.
  unfold dispatch.
  rewrite asyncSync_trace, asyncSync_crashed, asyncSync_operators,
    asyncSync_closers, asyncSync_loop. done.
Qed.

Lemma dispatch_all_frame reqs σ :
  trace (dispatch_all reqs σ) = trace σ ++ ((λ req, EvDispatch req.1 req.2) <$> reqs) ∧
  crashed (dispatch_all reqs σ) = crashed σ ∧
  operators (insp (dispatch_all reqs σ)) = operators (insp σ) ∧
  loop (dispatch_all reqs σ) = loop σ.
Proof.
  induction reqs as [|req reqs IH] using rev_ind.
  - simpl. by rewrite app_nil_r.
  - rewrite dispatch_all_snoc, fmap_app. simpl.
    destruct (dispatch_frame req (dispatch_all reqs σ)) as (-> & -> & -> & _ & ->).
    destruct IH as (-> & -> & -> & ->). by rewrite app_assoc.
Qed.


Lemma step_next_LRange name rest σ :
  crashed σ = false → loop σ = LRange (name :: rest) →
  step σ ALoopNext = Some (set_loop (LRange rest) (dispatch (name, false) σ)).
Proof. intros Hcr Hl. unfold step, background_next. by rewrite Hcr, Hl. Qed.

Lemma step_next_LSignals pchannel persisted rest σ :
  crashed σ = false → loop σ = LSignals ((pchannel, persisted) :: rest) →
  step σ ALoopNext
    = Some (set_loop (LSignals rest) (dispatch (Name pchannel, persisted) σ)).
Proof. intros Hcr Hl. unfold step, background_next. by rewrite Hcr, Hl. Qed.

Lemma step_next_end σ :
  crashed σ = false → loop σ = LRange [] ∨ loop σ = LSignals [] →
  step σ ALoopNext = Some (set_loop LSelect σ).
Proof.
  intros Hcr Hl. unfold step, background_next. rewrite Hcr.
  by destruct Hl as [-> | ->].
Qed.

Lemma set_loop_id σ : set_loop (loop σ) σ = σ.
Proof. by destruct σ. Qed.

Lemma run_LRange rest σ :
  crashed σ = false → loop σ = LRange rest →
  run σ (replicate (length rest) ALoopNext)
    = Some (set_loop (LRange []) (dispatch_all (tick_requests rest) σ)).
Proof.
  revert σ. induction rest as [|name rest IH]; intros σ Hcr Hl.
  - simpl. by rewrite <-Hl, set_loop_id.
  - cbn [length replicate run]. rewrite (step_next_LRange name rest) by done.
    rewrite IH; [|simpl|done].
    + by rewrite dispatch_all_set_loop.
    + by destruct (dispatch_frame (name, false) σ) as (_ & -> & _).
Qed.

Lemma run_LSignals rest σ :
  crashed σ = false → loop σ = LSignals rest →
  run σ (replicate (length rest) ALoopNext)
    = Some (set_loop (LSignals []) (dispatch_all (signal_requests rest) σ)).
Proof.
  revert σ. induction rest as [|[pchannel persisted] rest IH]; intros σ Hcr Hl.
  - simpl. by rewrite <-Hl, set_loop_id.
  - cbn [length replicate run].
    rewrite (step_next_LSignals pchannel persisted rest) by done.
    rewrite IH; [|simpl|done].
    + by rewrite dispatch_all_set_loop.
    + by destruct (dispatch_frame (Name pchannel, persisted) σ) as (_ & -> & _).
Qed.




Lemma Range_order_true {V} order (m : gmap string V) :
  typeutil.Range_order order m = true ↔ order ≡ₚ (map_to_list m).*1.
Proof. unfold typeutil.Range_order. apply bool_decide_eq_true. Qed.

Lemma run_tick_sweep order σ :
  crashed σ = false → loop σ = LSelect →
  typeutil.Range_order order (operators (insp σ)) = true →
  run σ (tick_sweep order)
    = Some (set_loop LSelect (dispatch_all (tick_requests order) σ)).
Proof.
  intros Hcr Hl Hord. unfold tick_sweep. cbn [run].
  unfold step at 1. rewrite Hcr. unfold background_tick. rewrite Hl, Hord.
  rewrite run_app, (run_LRange order) by done. cbn [mbind option_bind run].
  rewrite step_next_end; [|simpl|by left].
  - by rewrite dispatch_all_set_loop.
  - by destruct (dispatch_all_frame (tick_requests order) (set_loop (LRange order) σ))
      as (_ & -> & _).
Qed.

Lemma run_wake_sweep order σ :
  crashed σ = false → loop σ = LSelect →
  syncNotifier (insp σ) ≠ ∅ →
  order ≡ₚ map_to_list (syncNotifier (insp σ)) →
  run σ (wake_sweep order)
    = Some (set_loop LSelect
              (dispatch_all (signal_requests order)
                 (set_insp (set_syncNotifier (λ _, ∅)) σ))).
Proof.
  intros Hcr Hl Hne Hord. unfold wake_sweep. cbn [run].
  unfold step at 1. rewrite Hcr. unfold background_wake, syncNotifier.WaitChan_ready.
  rewrite Hl, bool_decide_eq_true_2 by done. cbn [syncNotifier.Get].
  rewrite decide_True by done.
  rewrite run_app, (run_LSignals order) by done. cbn [mbind option_bind run].
  rewrite step_next_end; [|simpl|by right].
  - by rewrite dispatch_all_set_loop.
  - by destruct (dispatch_all_frame (signal_requests order)
        (set_loop (LSignals order) (set_insp (set_syncNotifier (λ _, ∅)) σ)))
      as (_ & -> & _).
Qed.

(** ** C6: the periodic tick *)


(** ** C2, C10: triggers *)










Lemma C5_working_removed_on_every_outcome_witness :
  run NewTimeTickSyncInspector sched_panic = Some state_panic ∧
  "B"%string ∈ working (insp state_panic) ∧
  (∃ σ', complete 5 0 true state_panic = Some σ' ∧ exited 0 σ' ∧
         "B"%string ∉ working (insp σ')) ∧
  (∃ σ', step state_panic (AGo 0) = Some σ' ∧ exited 0 σ' ∧
         "B"%string ∉ working (insp σ')).
Proof.
  assert (run NewTimeTickSyncInspector sched_panic = Some state_panic) as Hrun
    by (vm_compute; reflexivity).
  destruct (C5_working_removed_on_every_outcome sched_panic state_panic 0
              {| g_name := "B"; g_persisted := false; g_pc := GDeferRemove;
                 g_panicking := true |} true Hrun)
    as [Hcomplete Hstep].
  - reflexivity.
  - reflexivity.
  - simpl. discriminate.
  - split; [exact Hrun|]. split; [vm_compute; reflexivity|].
    split; [exact Hcomplete|].
    destruct (step state_panic (AGo 0)) as [σ'|] eqn:Hs; [|by vm_compute in Hs].
    assert (exited 0 σ') as Hex.
    { vm_compute in Hs. injection Hs as <-. eexists. split; reflexivity. }
    exists σ'. split; [done|]. split; [exact Hex|]. exact (Hstep _ _ Hs Hex).
Defined.


Lemma C7_missing_operator_is_skipped_witness :
  run NewTimeTickSyncInspector sched_unregistered = Some state_unregistered ∧
  step state_unregistered (AGo 0)
    = Some (set_goroutines <[0 := set_pc GDeferDone (launched "A" false)]>
              state_unregistered) ∧
  ∃ σ', complete 5 0 false state_unregistered = Some σ' ∧ exited 0 σ' ∧
        trace σ' = trace state_unregistered ∧ crashed σ' = false.
Proof.
  assert (run NewTimeTickSyncInspector sched_unregistered = Some state_unregistered)
    as Hrun by (vm_compute; reflexivity).
  split; [exact Hrun|].
  apply (C7_missing_operator_is_skipped sched_unregistered state_unregistered 0
           (launched "A" false) false Hrun).
  - reflexivity.
  - reflexivity.
  - reflexivity.
  - vm_compute. reflexivity.
Defined.

(** * Further properties of the inspector *)

(** ** Every step is one of the listed ones *)

Lemma step_spec σ a σ' :
  step σ a = Some σ' → crashed σ = false ∧ step_rel σ a σ'.
Proof.
  unfold step. destruct (crashed σ) eqn:Hcr; [done|]. intros Hs. split; [done|].
  destruct a as [c|caller| |order|order| |i|i|i]; simpl in Hs.
  - injection Hs as <-. constructor.
  - unfold Close_step in Hs. destruct (closers σ !! caller) as [[]|] eqn:Hc; try done.
    + destruct (syncutil.finished _) eqn:Hf; [|done]. injection Hs as <-.
      by constructor.
    + destruct (decide _) as [Hz|]; [|done]. injection Hs as <-. by constructor.
    + injection Hs as <-. by constructor.
  - unfold background_shutdown in Hs. destruct (loop σ) eqn:Hl; try done.
    destruct (syncutil.ctx_done _) eqn:Hd; [|done]. injection Hs as <-.
    by constructor.
  - unfold background_tick in Hs. destruct (loop σ) eqn:Hl; try done.
    destruct (typeutil.Range_order _ _) eqn:Ho; [|done]. injection Hs as <-.
    constructor; [done|]. by apply bool_decide_eq_true in Ho.
  - unfold background_wake in Hs. destruct (loop σ) eqn:Hl; try done.
    destruct (syncNotifier.WaitChan_ready _) eqn:Hr; [|done].
    cbn [syncNotifier.Get] in Hs. destruct (decide _) as [Hperm|]; [|done].
    injection Hs as <-. constructor; [done| |done].
    by apply bool_decide_eq_true in Hr.
  - unfold background_next in Hs.
    destruct (loop σ) as [|[|name rest]|[|[pchannel persisted] rest]|] eqn:Hl;
      try done; injection Hs as <-.
    + constructor. by left.
    + by apply SNextRange.
    + constructor. by right.
    + by apply SNextSignals.
  - unfold goroutine_step in Hs. destruct (goroutines σ !! i) as [g|] eqn:Hi; [|done].
    destruct (g_pc g) eqn:Hpc; try done.
    + unfold typeutil.Get in Hs.
      destruct (operators (insp σ) !! g_name g) eqn:Hop; injection Hs as <-.
      * by apply SGoFound.
      * by apply SGoMissing.
    + destruct (wg (insp σ)) as [|n] eqn:Hn; injection Hs as <-.
      * by eapply SGoDoneNegative.
      * by apply SGoDone.
    + injection Hs as <-. by apply (SGoRemove σ i g).
  - unfold goroutine_step in Hs. destruct (goroutines σ !! i) as [g|] eqn:Hi; [|done].
    destruct (g_pc g) eqn:Hpc; try done. injection Hs as <-.
    by eapply SSyncReturn.
  - unfold goroutine_step in Hs. destruct (goroutines σ !! i) as [g|] eqn:Hi; [|done].
    destruct (g_pc g) eqn:Hpc; try done. injection Hs as <-.
    by eapply SSyncPanic.
Qed.

Lemma dispatch_cases req σ :
  (req.1 ∈ working (insp σ) ∧
   dispatch req σ = emit (EvDispatch req.1 req.2) σ) ∨
  ((req.1 ∉ working (insp σ)) ∧
   dispatch req σ =
     set_goroutines (λ gs, gs ++ [launched req.1 req.2])
       (set_insp (λ s, set_wg S (set_working (λ w, {[req.1]} ∪ w) s))
          (emit (EvDispatch req.1 req.2) σ))).
Proof.
  unfold dispatch.
  destruct (asyncSync_cases req.1 req.2 (emit (EvDispatch req.1 req.2) σ))
    as [[Hin ->]|[Hin ->]]; [by left|by right].
Qed.

(** ** More invariants *)

Lemma sum_list_with_insert {A} (f : A → nat) (l : list A) i x y :
  l !! i = Some x →
  sum_list_with f (<[i := y]> l) + f x = sum_list_with f l + f y.
Proof.
  revert i. induction l as [|z l IH]; intros [|i] Hi; simplify_eq/=.
  - lia.
  - specialize (IH i Hi). lia.
Qed.

Lemma count_past_start_le gs : count_past_start gs ≤ length gs.
Proof.
  unfold count_past_start. induction gs as [|g gs IH]; simpl; [lia|].
  destruct (past_start g); lia.
Qed.

Lemma sync_events_snoc tr e :
  length (sync_events (tr ++ [e]))
  = length (sync_events tr) + (if is_dispatch e then 0 else 1).
Proof.
  unfold sync_events. rewrite filter_app, length_app, filter_cons, filter_nil.
  destruct e; simpl; lia.
Qed.

Lemma dispatches_snoc tr e :
  length (dispatches (tr ++ [e]))
  = length (dispatches tr) + (if is_dispatch e then 1 else 0).
Proof.
  unfold dispatches. rewrite filter_app, length_app, filter_cons, filter_nil.
  destruct e; simpl; lia.
Qed.

Lemma run_call_keys c s :
  (∀ name operator, operators s !! name = Some operator → Name (Channel operator) = name) →
  ∀ name operator, operators (run_call c s).2 !! name = Some operator →
    Name (Channel operator) = name.
Proof.
  intros Hk name operator.
  destruct c as [ch p|ch|op|op]; unfold run_call, TriggerSync, MustGetOperator,
    RegisterSyncOperator, UnregisterSyncOperator, bind, operators_Get,
    operators_GetOrInsert, operators_GetAndRemove, typeutil.Get,
    typeutil.GetOrInsert, typeutil.GetAndRemove, ret, panic; simpl.
  - apply Hk.
  - destruct (operators s !! Name ch); simpl; apply Hk.
  - destruct (operators s !! Name (Channel op)) eqn:Hl; simpl; [apply Hk|].
    rewrite lookup_insert. case_decide; [|apply Hk]. by intros [= <-].
  - destruct (operators s !! Name (Channel op)) eqn:Hl; simpl; [|apply Hk].
    rewrite lookup_delete. case_decide; [done|apply Hk].
Qed.

Lemma inv_more_new : inv_more NewTimeTickSyncInspector.
Proof.
  constructor; simpl; try done.
  split; [done|]. intros (c & pc & Hc). by rewrite lookup_empty in Hc.
Qed.

Lemma inv_more_dispatch req σ :
  crashed σ = false → inv_more σ → inv_more (dispatch req σ).
Proof.
  intros Hcr [Hk Hc Hr Hcc Hs Hl].
  destruct (dispatch_cases req σ) as [[_ ->]|[_ ->]]; constructor; simpl;
    try done; try (by rewrite Hcr).
  - rewrite sync_events_snoc. simpl. lia.
  - rewrite dispatches_snoc. simpl. lia.
  - rewrite sync_events_snoc. simpl. unfold count_past_start in *.
    rewrite sum_list_with_app. simpl. lia.
  - rewrite dispatches_snoc, length_app. simpl. lia.
Qed.

Lemma inv_more_set_loop pc σ :
  inv_more σ → (pc = LReturned → syncutil.ctx_done (taskNotifier (insp σ)) = true) →
  inv_more (set_loop pc σ).
Proof. intros [Hk Hc Hr Hcc Hs Hl] Hpc. by constructor. Qed.

Lemma past_start_set_pc pc g :
  past_start (set_pc pc g) = bool_decide (pc ≠ GStart).
Proof. done. Qed.

(** Replacing goroutine [i] by one that has passed its lookup. *)
Lemma count_past_start_insert gs i g g' :
  gs !! i = Some g → past_start g' = true →
  count_past_start (<[i := g']> gs)
  = count_past_start gs + (if past_start g then 0 else 1).
Proof.
  intros Hi Hg'. unfold count_past_start.
  pose proof (sum_list_with_insert (λ g, if past_start g then 1 else 0) gs i g g' Hi)
    as Hsum. simpl in Hsum. rewrite Hg' in Hsum. destruct (past_start g); lia.
Qed.

Lemma inv_more_step σ a σ' :
  inv σ → inv_more σ → crashed σ = false → step_rel σ a σ' → inv_more σ'.
Proof.
  intros Hinv Hmore Hcr Hstep.
  destruct Hstep as
    [σ c|σ caller Hc|σ caller Hc Hf|σ caller Hc Hz|σ Hl Hd|σ order Hl Hp
    |σ order Hl Hne Hp|σ name rest Hl|σ pchannel persisted rest Hl|σ Hl
    |σ i g operator Hi Hpc Hop|σ i g Hi Hpc Hop|σ i g operator Hi Hpc
    |σ i g operator Hi Hpc|σ i g Hi Hpc Hz|σ i g n Hi Hpc Hn|σ i g Hi Hpc].
  - destruct Hmore as [Hk Hcrash Hr Hcc Hs Hla].
    destruct (run_call_frame c (insp σ)) as (Ht & _ & _).
    constructor; simpl; rewrite ?Ht; try done. by apply run_call_keys.
  - destruct Hmore as [Hk Hcrash Hr Hcc Hs Hla]. constructor; simpl; try done.
    split; [|done]. intros _. exists caller, CBlockUntilFinish.
    apply lookup_insert_eq.
  - destruct Hmore as [Hk Hcrash Hr Hcc Hs Hla]. constructor; simpl; try done.
    split.
    + intros _. exists caller, CWgWait. apply lookup_insert_eq.
    + intros _. apply Hcc. eauto.
  - destruct Hmore as [Hk Hcrash Hr Hcc Hs Hla]. constructor; simpl; try done.
    split.
    + intros _. exists caller, CReturned. apply lookup_insert_eq.
    + intros _. apply Hcc. eauto.
  - destruct Hmore as [Hk Hcrash Hr Hcc Hs Hla]. by constructor.
  - apply inv_more_set_loop; [done|discriminate].
  - apply inv_more_set_loop; [|discriminate].
    destruct Hmore as [Hk Hcrash Hr Hcc Hs Hla]. by constructor.
  - apply inv_more_set_loop; [|discriminate]. by apply inv_more_dispatch.
  - apply inv_more_set_loop; [|discriminate]. by apply inv_more_dispatch.
  - apply inv_more_set_loop; [done|discriminate].
  - destruct Hmore as [Hk Hcrash Hr Hcc Hs Hla].
    constructor; simpl; rewrite ?length_insert; try done; try (by rewrite Hcr).
    + rewrite sync_events_snoc. simpl.
      rewrite (count_past_start_insert _ _ g) by done.
      unfold past_start. rewrite Hpc. simpl. lia.
    + rewrite dispatches_snoc. simpl. lia.
  - destruct Hmore as [Hk Hcrash Hr Hcc Hs Hla].
    constructor; simpl; rewrite ?length_insert; try done; try (by rewrite Hcr).
    rewrite (count_past_start_insert _ _ g) by done. lia.
  - destruct Hmore as [Hk Hcrash Hr Hcc Hs Hla].
    constructor; simpl; rewrite ?length_insert; try done; try (by rewrite Hcr).
    rewrite (count_past_start_insert _ _ g) by done. lia.
  - destruct Hmore as [Hk Hcrash Hr Hcc Hs Hla].
    constructor; simpl; rewrite ?length_insert; try done; try (by rewrite Hcr).
    rewrite (count_past_start_insert _ _ g) by done. lia.
  - exfalso. assert (0 < wg (insp σ)); [|lia].
    eapply inv_tracked_wg; [done..|]. unfold tracked. by rewrite Hpc.
  - destruct Hmore as [Hk Hcrash Hr Hcc Hs Hla].
    constructor; simpl; rewrite ?length_insert; try done; try (by rewrite Hcr).
    rewrite (count_past_start_insert _ _ g) by done. lia.
  - destruct Hmore as [Hk Hcrash Hr Hcc Hs Hla].
    assert (Hlt : i < length (goroutines σ)) by by eapply lookup_lt_Some.
    destruct (g_panicking g) eqn:Hpan;
      constructor; simpl; rewrite ?length_insert; try done; try (by rewrite Hcr).
    + intros _. exists (set_pc GExited g). split; [|done].
      eapply list_elem_of_lookup_2. by apply list_lookup_insert_eq.
    + rewrite (count_past_start_insert _ _ g) by done. lia.
    + rewrite (count_past_start_insert _ _ g) by done. lia.
Qed.

Lemma reachable_inv_more σ : reachable σ → inv_more σ.
Proof.
  induction 1 as [|σ a σ' Hreach IH Hs]; [apply inv_more_new|].
  apply step_spec in Hs as [Hcr Hs].
  eapply inv_more_step; eauto using reachable_inv.
Qed.

(** ** The registry methods compose *)

Lemma Register_free operator s :
  operators s !! Name (Channel operator) = None →
  RegisterSyncOperator operator s
  = (Returned tt, set_operators <[Name (Channel operator) := operator]> s).
Proof.
  intros Hl. unfold RegisterSyncOperator, bind, operators_GetOrInsert,
    typeutil.GetOrInsert. by rewrite Hl.
Qed.

Lemma Register_taken operator old s :
  operators s !! Name (Channel operator) = Some old →
  RegisterSyncOperator operator s
  = (Panicked "sync operator already exists, critical bug in code", s).
Proof.
  intros Hl. unfold RegisterSyncOperator, bind, operators_GetOrInsert,
    typeutil.GetOrInsert. rewrite Hl. simpl. unfold panic.
  by rewrite set_operators_id.
Qed.

Lemma Unregister_present operator old s :
  operators s !! Name (Channel operator) = Some old →
  UnregisterSyncOperator operator s
  = (Returned tt, set_operators (delete (Name (Channel operator))) s).
Proof.
  intros Hl. unfold UnregisterSyncOperator, bind, operators_GetAndRemove,
    typeutil.GetAndRemove. by rewrite Hl.
Qed.

Lemma Unregister_absent operator s :
  operators s !! Name (Channel operator) = None →
  UnregisterSyncOperator operator s
  = (Panicked "sync operator not found, critical bug in code", s).
Proof.
  intros Hl. unfold UnregisterSyncOperator, bind, operators_GetAndRemove,
    typeutil.GetAndRemove. rewrite Hl. simpl. unfold panic.
  by rewrite set_operators_id.
Qed.

Lemma MustGet_lookup pChannelInfo s :
  MustGetOperator pChannelInfo s
  = match operators s !! Name pChannelInfo with
    | Some operator => (Returned operator, s)
    | None => (Panicked "sync operator not found, critical bug in code", s)
    end.
Proof.
  unfold MustGetOperator, bind, operators_Get, typeutil.Get, ret, panic.
  by destruct (operators s !! Name pChannelInfo).
Qed.

(** The registry after a call of [RegisterSyncOperator] or
    [UnregisterSyncOperator], whatever its outcome. *)
Lemma Register_operators operator s :
  operators (RegisterSyncOperator operator s).2
  = match operators s !! Name (Channel operator) with
    | Some _ => operators s
    | None => <[Name (Channel operator) := operator]> (operators s)
    end.
Proof.
  destruct (operators s !! Name (Channel operator)) as [old|] eqn:Hl.
  - by rewrite (Register_taken _ old).
  - by rewrite Register_free.
Qed.

Lemma Unregister_operators operator s :
  operators (UnregisterSyncOperator operator s).2
  = delete (Name (Channel operator)) (operators s).
Proof.
  destruct (operators s !! Name (Channel operator)) as [old|] eqn:Hl.
  - by rewrite (Unregister_present _ old).
  - rewrite Unregister_absent by done. simpl. by rewrite delete_id.
Qed.

(** X1.  After a successful [RegisterSyncOperator], [MustGetOperator] on any
    channel identity that carries the operator's channel name returns that
    operator, whatever the rest of the identity is. *)
Theorem X1_register_then_must_get operator pChannelInfo s :
  operators s !! Name (Channel operator) = None →
  Name pChannelInfo = Name (Channel operator) →
  MustGetOperator pChannelInfo (RegisterSyncOperator operator s).2
  = (Returned operator, (RegisterSyncOperator operator s).2).
Proof.
  intros Hfree Hname. rewrite MustGet_lookup, Hname, Register_operators, Hfree.
  by rewrite lookup_insert_eq.
Qed.

Lemma X1_register_then_must_get_witness :
  MustGetOperator {| Name := "A"; Term := 7 |}
    (RegisterSyncOperator opA (insp NewTimeTickSyncInspector)).2
  = (Returned opA, (RegisterSyncOperator opA (insp NewTimeTickSyncInspector)).2).
Proof.
  apply (X1_register_then_must_get opA {| Name := "A"; Term := 7 |}
           (insp NewTimeTickSyncInspector)).
  - vm_compute. reflexivity.
  - reflexivity.
Defined.

(** X2.  Registering or unregistering an operator, whether the call succeeds
    or panics, changes nothing for the channels of another name:
    [MustGetOperator] on them gives the operator, or the panic, it gave
    before. *)
Theorem X2_registry_calls_leave_other_names operator pChannelInfo s :
  Name pChannelInfo ≠ Name (Channel operator) →
  (MustGetOperator pChannelInfo (RegisterSyncOperator operator s).2).1
    = (MustGetOperator pChannelInfo s).1 ∧
  (MustGetOperator pChannelInfo (UnregisterSyncOperator operator s).2).1
    = (MustGetOperator pChannelInfo s).1.
Proof.
  intros Hne. rewrite !MustGet_lookup, Register_operators, Unregister_operators.
  rewrite lookup_delete_ne by done. split; [|by destruct (operators s !! _)].
  destruct (operators s !! Name (Channel operator)); rewrite ?lookup_insert_ne by done;
    by destruct (operators s !! Name pChannelInfo).
Qed.

Lemma X2_registry_calls_leave_other_names_witness :
  (MustGetOperator chA (RegisterSyncOperator opB (insp state_registered)).2).1
    = (MustGetOperator chA (insp state_registered)).1 ∧
  (MustGetOperator chA (UnregisterSyncOperator opB (insp state_registered)).2).1
    = (MustGetOperator chA (insp state_registered)).1.
Proof.
  apply (X2_registry_calls_leave_other_names opB chA (insp state_registered)).
  vm_compute. discriminate.
Defined.

(** X3.  Registering an operator under a free name and unregistering it again
    gives back the inspector one started from, field by field. *)
Theorem X3_register_then_unregister operator s :
  operators s !! Name (Channel operator) = None →
  UnregisterSyncOperator operator (RegisterSyncOperator operator s).2
  = (Returned tt, s).
Proof.
  intros Hfree. rewrite Register_free by done. cbn [snd].
  rewrite (Unregister_present _ operator) by (simpl; apply lookup_insert_eq).
  f_equal. destruct s as [tn sn ops w wk]. unfold set_operators. simpl in *.
  by rewrite delete_insert_id.
Qed.

Lemma X3_register_then_unregister_witness :
  UnregisterSyncOperator opA (RegisterSyncOperator opA (insp NewTimeTickSyncInspector)).2
  = (Returned tt, insp NewTimeTickSyncInspector).
Proof.
  apply (X3_register_then_unregister opA (insp NewTimeTickSyncInspector)).
  vm_compute. reflexivity.
Defined.

(** X4.  A name that has been unregistered is free again: registering a new
    operator for it succeeds and the registry then maps the name to the new
    operator, all other entries being those from before. *)
Theorem X4_unregister_then_register old operator s :
  Name (Channel old) = Name (Channel operator) →
  is_Some (operators s !! Name (Channel old)) →
  RegisterSyncOperator operator (UnregisterSyncOperator old s).2
  = (Returned tt, set_operators <[Name (Channel operator) := operator]> s).
Proof.
  intros Hname [stored Hl].
  rewrite (Unregister_present _ stored) by done. cbn [snd].
  rewrite Register_free by (simpl; rewrite Hname; apply lookup_delete_eq).
  f_equal. unfold set_operators. simpl. by rewrite Hname, insert_delete_eq.
Qed.

Lemma X4_unregister_then_register_witness :
  RegisterSyncOperator {| op_id := 5; Channel := chA |}
    (UnregisterSyncOperator opA (insp state_registered)).2
  = (Returned tt,
     set_operators <[Name chA := {| op_id := 5; Channel := chA |}]>
       (insp state_registered)).
Proof.
  apply (X4_unregister_then_register opA {| op_id := 5; Channel := chA |}
           (insp state_registered)).
  - reflexivity.
  - vm_compute. eexists. reflexivity.
Defined.

(** ** Invariants of the running inspector *)

(** X5.  In every reachable state the registry is keyed by the channel name of
    the operator it stores, so an operator that [MustGetOperator] returns
    belongs to a channel of the name asked for. *)
Theorem X5_registry_keyed_by_channel_name acts σ :
  run NewTimeTickSyncInspector acts = Some σ →
  (∀ name operator, operators (insp σ) !! name = Some operator →
     Name (Channel operator) = name) ∧
  (∀ pChannelInfo operator,
     (MustGetOperator pChannelInfo (insp σ)).1 = Returned operator →
     Name (Channel operator) = Name pChannelInfo).
Proof.
  intros [Hk _ _ _ _ _]%run_reachable%reachable_inv_more. split; [done|].
  intros pChannelInfo operator. rewrite MustGet_lookup.
  destruct (operators (insp σ) !! Name pChannelInfo) as [stored|] eqn:Hl; [|done].
  intros [= <-]. by apply Hk.
Qed.

Lemma X5_registry_keyed_by_channel_name_witness :
  run NewTimeTickSyncInspector sched_registered = Some state_registered ∧
  (MustGetOperator chB (insp state_registered)).1 = Returned opB ∧
  Name (Channel opB) = Name chB.
Proof.
  assert (run NewTimeTickSyncInspector sched_registered = Some state_registered)
    as Hrun by (vm_compute; reflexivity).
  assert ((MustGetOperator chB (insp state_registered)).1 = Returned opB) as Hget
    by (vm_compute; reflexivity).
  split; [exact Hrun|]. split; [exact Hget|].
  exact (proj2 (X5_registry_keyed_by_channel_name sched_registered state_registered Hrun)
           chB opB Hget).
Defined.

(** X6.  Only [RegisterSyncOperator] and [UnregisterSyncOperator] write the
    registry: no step of [background], of a goroutine, of [Close], of
    [TriggerSync] or of [MustGetOperator] changes it. *)
Theorem X6_registry_written_only_by_its_methods σ a σ' :
  step σ a = Some σ' →
  is_registry_call a = false →
  operators (insp σ') = operators (insp σ).
Proof.
  intros [_ Hstep]%step_spec Hcall.
  destruct Hstep as
    [σ c|σ caller Hc|σ caller Hc Hf|σ caller Hc Hz|σ Hl Hd|σ order Hl Hp
    |σ order Hl Hne Hp|σ name rest Hl|σ pchannel persisted rest Hl|σ Hl
    |σ i g operator Hi Hpc Hop|σ i g Hi Hpc Hop|σ i g operator Hi Hpc
    |σ i g operator Hi Hpc|σ i g Hi Hpc Hz|σ i g n Hi Hpc Hn|σ i g Hi Hpc].
  { destruct c as [ch p|ch|op|op]; try done. cbn [insp set_insp run_call].
    unfold bind. rewrite MustGet_lookup.
    by destruct (operators (insp σ) !! Name ch). }
  all: simpl; try done.
  - by destruct (dispatch_frame (name, false) σ) as (_ & _ & -> & _).
  - by destruct (dispatch_frame (Name pchannel, persisted) σ) as (_ & _ & -> & _).
  - by destruct (g_panicking g).
Qed.

Lemma X6_registry_written_only_by_its_methods_witness :
  step state_ticking ALoopNext
    = Some (set_loop (LRange []) (dispatch ("B"%string, false) state_ticking)) ∧
  operators (insp (set_loop (LRange []) (dispatch ("B"%string, false) state_ticking)))
    = operators (insp state_ticking).
Proof.
  assert (step state_ticking ALoopNext
          = Some (set_loop (LRange []) (dispatch ("B"%string, false) state_ticking)))
    as Hs by (vm_compute; reflexivity).
  split; [exact Hs|].
  exact (X6_registry_written_only_by_its_methods _ _ _ Hs eq_refl).
Defined.

Lemma step_without_panic σ a σ' :
  inv σ → Forall (λ g, g_panicking g = false) (goroutines σ) →
  step σ a = Some σ' → is_sync_panic a = false →
  crashed σ' = false ∧ Forall (λ g, g_panicking g = false) (goroutines σ').
Proof.
  intros Hinv Hall [Hcr Hstep]%step_spec Hnp.
  destruct Hstep as
    [σ c|σ caller Hc|σ caller Hc Hf|σ caller Hc Hz|σ Hl Hd|σ order Hl Hp
    |σ order Hl Hne Hp|σ name rest Hl|σ pchannel persisted rest Hl|σ Hl
    |σ i g operator Hi Hpc Hop|σ i g Hi Hpc Hop|σ i g operator Hi Hpc
    |σ i g operator Hi Hpc|σ i g Hi Hpc Hz|σ i g n Hi Hpc Hn|σ i g Hi Hpc];
    simpl; try done;
    try (pose proof (Forall_lookup_1 _ _ _ _ Hall Hi) as Hg);
    try (split; [done|]; by apply Forall_insert).
  - destruct (dispatch_cases (name, false) σ) as [[_ ->]|[_ ->]]; simpl; [done|].
    split; [done|]. apply Forall_app. split; [done|]. by repeat constructor.
  - destruct (dispatch_cases (Name pchannel, persisted) σ) as [[_ ->]|[_ ->]];
      simpl; [done|].
    split; [done|]. apply Forall_app. split; [done|]. by repeat constructor.
  - exfalso. assert (0 < wg (insp σ)); [|lia].
    eapply inv_tracked_wg; [done..|]. unfold tracked. by rewrite Hpc.
  - rewrite Hg. simpl. split; [done|]. by apply Forall_insert.
Qed.

Lemma run_without_panic acts σ σ' :
  reachable σ → crashed σ = false →
  Forall (λ g, g_panicking g = false) (goroutines σ) →
  run σ acts = Some σ' → Forall (λ a, is_sync_panic a = false) acts →
  crashed σ' = false ∧ Forall (λ g, g_panicking g = false) (goroutines σ').
Proof.
  revert σ. induction acts as [|a acts IH]; intros σ Hreach Hcr Hall; simpl.
  - by intros [= <-] _.
  - destruct (step σ a) as [σ1|] eqn:Hs; [|done]. intros Hrun Hnp.
    apply Forall_cons in Hnp as [Ha Hnp].
    destruct (step_without_panic σ a σ1) as [Hcr1 Hall1];
      eauto using reachable_inv, reachable_step.
Qed.



(** X8.  [Sync] is called at most once per goroutine, and a goroutine is
    started only by a dispatch request: in every reachable state the number of
    [Sync] calls made is at most the number of goroutines launched, which is
    at most the number of dispatch requests issued. *)
Theorem X8_sync_calls_bounded_by_dispatches acts σ :
  run NewTimeTickSyncInspector acts = Some σ →
  length (sync_events (trace σ)) ≤ length (goroutines σ) ∧
  length (goroutines σ) ≤ length (dispatches (trace σ)).
Proof.
  intros [_ _ _ _ Hs Hl]%run_reachable%reachable_inv_more. split; [|done].
  pose proof (count_past_start_le (goroutines σ)). lia.
Qed.

Lemma X8_sync_calls_bounded_by_dispatches_witness :
  run NewTimeTickSyncInspector sched_retick = Some state_retick ∧
  length (sync_events (trace state_retick)) ≤ length (goroutines state_retick) ∧
  length (goroutines state_retick) ≤ length (dispatches (trace state_retick)).
Proof.
  assert (run NewTimeTickSyncInspector sched_retick = Some state_retick) as Hrun
    by (vm_compute; reflexivity).
  split; [exact Hrun|].
  exact (X8_sync_calls_bounded_by_dispatches sched_retick state_retick Hrun).
Defined.

(** X9.  [background] returns only after a cancel, and only [Close] cancels:
    in every reachable state where the loop has returned, the context is done
    and some caller has entered [Close]; as long as nobody has called
    [Close], the context is live and the loop is running. *)
Theorem X9_loop_returns_only_after_close acts σ :
  run NewTimeTickSyncInspector acts = Some σ →
  (loop σ = LReturned →
     syncutil.ctx_done (taskNotifier (insp σ)) = true ∧
     ∃ caller pc, closers σ !! caller = Some pc) ∧
  (closers σ = ∅ →
     syncutil.ctx_done (taskNotifier (insp σ)) = false ∧ loop σ ≠ LReturned).
Proof.
  intros [_ _ Hr Hcc _ _]%run_reachable%reachable_inv_more. split.
  - intros Hl. split; [by apply Hr|]. by apply Hcc, Hr.
  - intros Hnone.
    assert (syncutil.ctx_done (taskNotifier (insp σ)) = false) as Hd.
    { apply not_true_is_false. intros Hd.
      apply Hcc in Hd as (c & pc & Hc). by rewrite Hnone, lookup_empty in Hc. }
    split; [done|]. intros Hl. apply Hr in Hl. congruence.
Qed.

Lemma X9_loop_returns_only_after_close_witness :
  run NewTimeTickSyncInspector sched_tick = Some state_tick ∧
  closers state_tick = ∅ ∧
  syncutil.ctx_done (taskNotifier (insp state_tick)) = false ∧
  loop state_tick ≠ LReturned.
Proof.
  assert (run NewTimeTickSyncInspector sched_tick = Some state_tick) as Hrun
    by (vm_compute; reflexivity).
  split; [exact Hrun|]. split; [reflexivity|].
  exact (proj2 (X9_loop_returns_only_after_close sched_tick state_tick Hrun) eq_refl).
Defined.

(** ** Accounting of the goroutines in flight *)

Lemma NoDup_fmap_filter {A B} `{!EqDecision B} (f : A → B) (P : A → Prop)
    `{!∀ x, Decision (P x)} (l : list A) :
  (∀ i j x y, l !! i = Some x → l !! j = Some y → P x → P y → f x = f y → i = j) →
  NoDup (f <$> filter P l).
Proof.
  induction l as [|x l IH]; intros Hu; [constructor|].
  assert (NoDup (f <$> filter P l)) as Hnd.
  { apply IH. intros i j y z Hi Hj Hy Hz Hf.
    by specialize (Hu (S i) (S j) y z Hi Hj Hy Hz Hf) as [= ->]. }
  rewrite filter_cons. destruct (decide (P x)) as [Hx|Hx]; [|done].
  simpl. constructor; [|done].
  intros (y & Hf & [Hy Hin]%list_elem_of_filter)%list_elem_of_fmap.
  apply list_elem_of_lookup in Hin as [j Hj].
  by specialize (Hu 0 (S j) x y eq_refl Hj Hx Hy Hf).
Qed.

Lemma pool_inv_size w gs :
  pool_inv w gs →
  size w = length (filter (λ g, in_flight g = true) gs).
Proof.
  intros [Hw Hu].
  assert (w = list_to_set (g_name <$> filter (λ g, in_flight g = true) gs)) as ->.
  { apply set_eq. intros n. rewrite Hw, elem_of_list_to_set, list_elem_of_fmap. split.
    - intros (i & g & Hi & Hn & Hpc). exists g. split; [done|].
      apply list_elem_of_filter. split; [by apply in_flight_true|].
      by eapply list_elem_of_lookup_2.
    - intros (g & -> & [Hpc Hin]%list_elem_of_filter).
      apply list_elem_of_lookup in Hin as [i Hi]. exists i, g.
      by rewrite <-in_flight_true. }
  rewrite size_list_to_set, length_fmap; [done|].
  apply NoDup_fmap_filter. intros i j g h Hi Hj Hg Hh Hn.
  apply in_flight_true in Hg, Hh. by apply (Hu i j g h).
Qed.

Lemma count_tracked_le_in_flight gs :
  count_tracked gs ≤ length (filter (λ g, in_flight g = true) gs).
Proof.
  unfold count_tracked. induction gs as [|g gs IH]; simpl; [lia|].
  rewrite filter_cons. destruct (decide (in_flight g = true)) as [|Hn].
  - simpl. destruct (tracked g); lia.
  - assert (tracked g = false) as ->; [|simpl; lia].
    unfold tracked. rewrite in_flight_true in Hn.
    destruct (g_pc g); try done; by destruct Hn.
Qed.

(** X10.  The in-flight set and the wait group account for the goroutines: in
    every reachable state the number of goroutines that have not yet removed
    their name equals the size of [working], and the counter of the wait
    group, which is the number of goroutines that have not yet called
    [wg.Done()], is at most that size. *)
Theorem X10_working_and_wg_account_for_goroutines acts σ :
  run NewTimeTickSyncInspector acts = Some σ →
  size (working (insp σ)) = length (filter (λ g, in_flight g = true) (goroutines σ)) ∧
  wg (insp σ) = count_tracked (goroutines σ) ∧
  wg (insp σ) ≤ size (working (insp σ)).
Proof.
  intros [Hp Hwg _ _]%run_reachable%reachable_inv.
  pose proof (pool_inv_size _ _ Hp) as Hsize.
  pose proof (count_tracked_le_in_flight (goroutines σ)). 
  split; [done|]. split; [done|]. lia.
Qed.

Lemma X10_working_and_wg_account_for_goroutines_witness :
  run NewTimeTickSyncInspector sched_panic = Some state_panic ∧
  size (working (insp state_panic)) = 2 ∧
  wg (insp state_panic) = 1 ∧
  size (working (insp state_panic))
    = length (filter (λ g, in_flight g = true) (goroutines state_panic)) ∧
  wg (insp state_panic) = count_tracked (goroutines state_panic) ∧
  wg (insp state_panic) ≤ size (working (insp state_panic)).
Proof.
  assert (run NewTimeTickSyncInspector sched_panic = Some state_panic) as Hrun
    by (vm_compute; reflexivity).
  split; [exact Hrun|]. split; [vm_compute; reflexivity|]. split; [reflexivity|].
  exact (X10_working_and_wg_account_for_goroutines sched_panic state_panic Hrun).
Defined.

(** ** Goroutines run to their end, and the inspector can be closed *)

Lemma complete_ok i σ g :
  inv σ → crashed σ = false → goroutines σ !! i = Some g →
  g_pc g ≠ GExited → g_panicking g = false →
  ∃ σ', complete 5 i false σ = Some σ' ∧ exited i σ' ∧ crashed σ' = false ∧
        working (insp σ') = working (insp σ) ∖ {[g_name g]}.
Proof.
  intros Hinv Hcr Hi Hpc Hpan.
  destruct (g_pc g) as [|operator| | |] eqn:Hg; [| | | |done].
  - destruct (complete_from_start i false 0 σ g) as (σ' & Hrun & Hw & Hex & _ & Hres);
      try done.
    { eapply inv_tracked_wg; [done..|]. unfold tracked. by rewrite Hg. }
    exists σ'. split; [exact Hrun|]. split; [done|]. split; [|done].
    rewrite Hpan in Hres. by destruct (operators (insp σ) !! g_name g), Hres.
  - destruct (complete_from_syncing i false 1 σ g operator)
      as (σ' & Hrun & Hw & Hex & _ & Hc & _); try done.
    { eapply inv_tracked_wg; [done..|]. unfold tracked. by rewrite Hg. }
    exists σ'. split; [exact Hrun|]. rewrite Hc, Hpan. done.
  - destruct (complete_from_done i false 2 σ g) as (σ' & Hrun & Hw & Hex & _ & Hc & _);
      try done.
    { eapply inv_tracked_wg; [done..|]. unfold tracked. by rewrite Hg. }
    exists σ'. split; [exact Hrun|]. rewrite Hc, Hpan. done.
  - destruct (complete_from_remove i false 3 σ g) as (σ' & Hrun & Hw & Hex & _ & Hc & _);
      try done.
    exists σ'. split; [exact Hrun|]. rewrite Hc, Hpan. done.
Qed.

Lemma complete_false_run fuel i σ σ' :
  complete fuel i false σ = Some σ' →
  ∃ acts, run σ acts = Some σ' ∧
    Forall (λ a, a = AGo i ∨ a = ASyncReturn i) acts.
Proof.
  revert σ. induction fuel as [|fuel IH]; intros σ; [done|].
  rewrite complete_S. destruct (goroutines σ !! i) as [g|]; [|done].
  destruct (g_pc g).
  - destruct (step σ (AGo i)) as [σ1|] eqn:Hs; [|done]. simpl.
    intros (acts & Hrun & Hall)%IH. exists (AGo i :: acts). simpl.
    rewrite Hs. split; [done|]. constructor; [by left|done].
  - destruct (step σ (ASyncReturn i)) as [σ1|] eqn:Hs; [|done]. simpl.
    intros (acts & Hrun & Hall)%IH. exists (ASyncReturn i :: acts). simpl.
    rewrite Hs. split; [done|]. constructor; [by right|done].
  - destruct (step σ (AGo i)) as [σ1|] eqn:Hs; [|done]. simpl.
    intros (acts & Hrun & Hall)%IH. exists (AGo i :: acts). simpl.
    rewrite Hs. split; [done|]. constructor; [by left|done].
  - destruct (step σ (AGo i)) as [σ1|] eqn:Hs; [|done]. simpl.
    intros (acts & Hrun & Hall)%IH. exists (AGo i :: acts). simpl.
    rewrite Hs. split; [done|]. constructor; [by left|done].
  - intros [= <-]. by exists [].
Qed.

Lemma step_goroutine_frame i a σ σ' :
  step σ a = Some σ' → a = AGo i ∨ a = ASyncReturn i →
  goroutine_frame i σ σ'.
Proof.
  intros [_ Hstep]%step_spec Ha. unfold goroutine_frame.
  destruct Hstep as
    [σ c|σ caller Hc|σ caller Hc Hf|σ caller Hc Hz|σ Hl Hd|σ order Hl Hp
    |σ order Hl Hne Hp|σ name rest Hl|σ pchannel persisted rest Hl|σ Hl
    |σ k g operator Hi Hpc Hop|σ k g Hi Hpc Hop|σ k g operator Hi Hpc
    |σ k g operator Hi Hpc|σ k g Hi Hpc Hz|σ k g n Hi Hpc Hn|σ k g Hi Hpc];
    try (by destruct Ha);
    (assert (k = i) as -> by (destruct Ha; congruence));
    try (destruct (g_panicking g)); simpl; rewrite ?length_insert;
    repeat (split; [done|]); try done;
    intros j Hj; by rewrite list_lookup_insert_ne.
Qed.

Lemma goroutine_frame_refl i σ : goroutine_frame i σ σ.
Proof. by unfold goroutine_frame. Qed.

Lemma goroutine_frame_trans i σ1 σ2 σ3 :
  goroutine_frame i σ1 σ2 → goroutine_frame i σ2 σ3 → goroutine_frame i σ1 σ3.
Proof.
  intros (Hl1 & Hc1 & Ht1 & Hn1 & Hg1) (Hl2 & Hc2 & Ht2 & Hn2 & Hg2).
  unfold goroutine_frame. rewrite Hl2, Hc2, Ht2, Hn2. repeat (split; [done|]).
  intros j Hj. by rewrite Hg2, Hg1.
Qed.

Lemma run_goroutine_frame i acts σ σ' :
  run σ acts = Some σ' → Forall (λ a, a = AGo i ∨ a = ASyncReturn i) acts →
  goroutine_frame i σ σ'.
Proof.
  revert σ. induction acts as [|a acts IH]; intros σ; simpl.
  - intros [= <-] _. apply goroutine_frame_refl.
  - destruct (step σ a) as [σ1|] eqn:Hs; [|done]. intros Hrun Hall.
    apply Forall_cons in Hall as [Ha Hall].
    eapply goroutine_frame_trans; [by eapply step_goroutine_frame|by apply IH].
Qed.

Lemma goroutine_actions_no_panic i acts :
  Forall (λ a, a = AGo i ∨ a = ASyncReturn i) acts →
  Forall (λ a, is_sync_panic a = false ∧ is_close a = false) acts.
Proof. intros Hall. eapply Forall_impl; [done|]. by intros a [-> | ->]. Qed.

(** Every goroutine with an index below [k] can be run to its end, one after
    the other, when no [Sync] panics. *)
Lemma drain_goroutines k σ :
  reachable σ → crashed σ = false →
  Forall (λ g, g_panicking g = false) (goroutines σ) →
  ∃ acts σ', run σ acts = Some σ' ∧
    Forall (λ a, is_sync_panic a = false ∧ is_close a = false) acts ∧
    crashed σ' = false ∧ loop σ' = loop σ ∧ closers σ' = closers σ ∧
    taskNotifier (insp σ') = taskNotifier (insp σ) ∧
    length (goroutines σ') = length (goroutines σ) ∧
    (∀ j, j < k → j < length (goroutines σ) → exited j σ') ∧
    (∀ j, k ≤ j → goroutines σ' !! j = goroutines σ !! j).
Proof.
  intros Hreach Hcr Hall. induction k as [|k IH].
  - exists [], σ. repeat (split; [done|]). split; [intros j; lia|done].
  - destruct IH as (acts & σ1 & Hrun & Hnp & Hcr1 & Hl1 & Hc1 & Ht1 & Hn1 & Hex1 & Hrest1).
    destruct (goroutines σ !! k) as [g|] eqn:Hk; last first.
    { exists acts, σ1. repeat (split; [done|]). split.
      - intros j Hj Hlt. apply Hex1; [|done]. apply lookup_ge_None in Hk. lia.
      - intros j Hj. apply Hrest1. lia. }
    assert (goroutines σ1 !! k = Some g) as Hk1 by (by rewrite Hrest1).
    assert (reachable σ1) as Hreach1.
    { apply reachable_run in Hreach as [acts0 Hacts0]. apply (run_reachable (acts0 ++ acts)).
      rewrite run_app, Hacts0. done. }
    assert (g_panicking g = false) as Hpan by (by eapply (Forall_lookup_1 _ _ _ _ Hall)).
    destruct (decide (g_pc g = GExited)) as [Hpc|Hpc].
    { exists acts, σ1. repeat (split; [done|]). split.
      - intros j Hj Hlt. destruct (decide (j = k)) as [->|Hne]; [by exists g|].
        apply Hex1; [lia|done].
      - intros j Hj. apply Hrest1. lia. }
    destruct (complete_ok k σ1 g) as (σ2 & Hcomp & Hex2 & Hcr2 & _);
      try done; [by apply reachable_inv|].
    apply complete_false_run in Hcomp as (acts2 & Hrun2 & Hall2).
    destruct (run_goroutine_frame _ _ _ _ Hrun2 Hall2) as (Hl2 & Hc2 & Ht2 & Hn2 & Hg2).
    exists (acts ++ acts2), σ2. split; [by rewrite run_app, Hrun|].
    split; [apply Forall_app; eauto using goroutine_actions_no_panic|].
    split; [done|]. split; [congruence|]. split; [congruence|].
    split; [congruence|]. split; [congruence|]. split.
    + intros j Hj Hlt. destruct (decide (j = k)) as [->|Hne]; [done|].
      destruct (Hex1 j) as (h & Hh & Hhpc); [lia|done|].
      exists h. by rewrite Hg2.
    + intros j Hj. rewrite Hg2 by lia. apply Hrest1. lia.
Qed.

Lemma step_ctx_done σ a σ' :
  step σ a = Some σ' →
  syncutil.ctx_done (taskNotifier (insp σ)) = true →
  syncutil.ctx_done (taskNotifier (insp σ')) = true.
Proof.
  intros [_ Hstep]%step_spec Hd.
  destruct Hstep as
    [σ c|σ caller Hc|σ caller Hc Hf|σ caller Hc Hz|σ Hl Hd'|σ order Hl Hp
    |σ order Hl Hne Hp|σ name rest Hl|σ pchannel persisted rest Hl|σ Hl
    |σ k g operator Hi Hpc Hop|σ k g Hi Hpc Hop|σ k g operator Hi Hpc
    |σ k g operator Hi Hpc|σ k g Hi Hpc Hz|σ k g n Hi Hpc Hn|σ k g Hi Hpc];
    try (destruct (g_panicking g)); simpl; try done.
  - by destruct (run_call_frame c (insp σ)) as (-> & _ & _).
  - by destruct (dispatch_cases (name, false) σ) as [[_ ->]|[_ ->]].
  - by destruct (dispatch_cases (Name pchannel, persisted) σ) as [[_ ->]|[_ ->]].
Qed.

Lemma step_closers_frame σ a σ' :
  step σ a = Some σ' → is_close a = false → closers σ' = closers σ.
Proof.
  intros [_ Hstep]%step_spec Ha.
  destruct Hstep as
    [σ c|σ caller Hc|σ caller Hc Hf|σ caller Hc Hz|σ Hl Hd'|σ order Hl Hp
    |σ order Hl Hne Hp|σ name rest Hl|σ pchannel persisted rest Hl|σ Hl
    |σ k g operator Hi Hpc Hop|σ k g Hi Hpc Hop|σ k g operator Hi Hpc
    |σ k g operator Hi Hpc|σ k g Hi Hpc Hz|σ k g n Hi Hpc Hn|σ k g Hi Hpc];
    try (destruct (g_panicking g)); simpl; try done.
  - by destruct (dispatch_frame (name, false) σ) as (_ & _ & _ & -> & _).
  - by destruct (dispatch_frame (Name pchannel, persisted) σ) as (_ & _ & _ & -> & _).
Qed.

Lemma run_loop_frame acts σ σ' :
  run σ acts = Some σ' → Forall (λ a, is_close a = false) acts →
  closers σ' = closers σ ∧
  (syncutil.ctx_done (taskNotifier (insp σ)) = true →
   syncutil.ctx_done (taskNotifier (insp σ')) = true).
Proof.
  revert σ. induction acts as [|a acts IH]; intros σ; simpl.
  - by intros [= <-] _.
  - destruct (step σ a) as [σ1|] eqn:Hs; [|done]. intros Hrun Hall.
    apply Forall_cons in Hall as [Ha Hall].
    destruct (IH _ Hrun Hall) as [Hc Hd]. split.
    + rewrite Hc. by eapply step_closers_frame.
    + intros Hdone. eapply Hd, step_ctx_done; eauto.
Qed.

Lemma run_reachable_from acts σ σ' :
  reachable σ → run σ acts = Some σ' → reachable σ'.
Proof.
  intros [acts0 Hacts0]%reachable_run Hrun. apply (run_reachable (acts0 ++ acts)).
  by rewrite run_app, Hacts0.
Qed.

(** [background] can always get back to its [select]: the loop body of a
    tick or of a wake-up never blocks. *)
Lemma loop_reaches_select σ :
  crashed σ = false → loop σ ≠ LReturned →
  ∃ acts σ', run σ acts = Some σ' ∧ loop σ' = LSelect ∧
    Forall (λ a, a = ALoopNext) acts.
Proof.
  intros Hcr Hl. destruct (loop σ) as [|rest|rest|] eqn:Hloop; [| | |done].
  - exists [], σ. by repeat split.
  - exists (replicate (length rest) ALoopNext ++ [ALoopNext]). eexists.
    rewrite run_app, (run_LRange rest) by done. cbn [mbind option_bind run].
    rewrite step_next_end; [|simpl|by left].
    + split; [done|]. split; [done|].
      apply Forall_app. split; [by apply Forall_replicate|by repeat constructor].
    + by destruct (dispatch_all_frame (tick_requests rest) σ) as (_ & -> & _).
  - exists (replicate (length rest) ALoopNext ++ [ALoopNext]). eexists.
    rewrite run_app, (run_LSignals rest) by done. cbn [mbind option_bind run].
    rewrite step_next_end; [|simpl|by right].
    + split; [done|]. split; [done|].
      apply Forall_app. split; [by apply Forall_replicate|by repeat constructor].
    + by destruct (dispatch_all_frame (signal_requests rest) σ) as (_ & -> & _).
Qed.

Lemma loop_actions_no_panic acts :
  Forall (λ a, a = ALoopNext) acts →
  Forall (λ a, is_sync_panic a = false) acts ∧ Forall (λ a, is_close a = false) acts.
Proof.
  intros Hall. split; (eapply Forall_impl; [done|]); by intros a ->.
Qed.

(** After a cancel, [background] finishes the sweep it is in and returns. *)
Lemma loop_finishes σ :
  reachable σ → crashed σ = false →
  syncutil.ctx_done (taskNotifier (insp σ)) = true →
  Forall (λ g, g_panicking g = false) (goroutines σ) →
  ∃ acts σ', run σ acts = Some σ' ∧
    Forall (λ a, is_sync_panic a = false) acts ∧
    loop σ' = LReturned ∧ crashed σ' = false ∧ closers σ' = closers σ ∧
    Forall (λ g, g_panicking g = false) (goroutines σ').
Proof.
  intros Hreach Hcr Hd Hall.
  destruct (decide (loop σ = LReturned)) as [Hl|Hl].
  { exists [], σ. by repeat split. }
  destruct (loop_reaches_select σ Hcr Hl) as (acts & σ1 & Hrun & Hl1 & Hacts).
  destruct (loop_actions_no_panic _ Hacts) as [Hnp Hnc].
  destruct (run_without_panic _ _ _ Hreach Hcr Hall Hrun Hnp) as [Hcr1 Hall1].
  destruct (run_loop_frame _ _ _ Hrun Hnc) as [Hc1 Hd1].
  exists (acts ++ [ALoopShutdown]). eexists. split.
  { rewrite run_app, Hrun. cbn [mbind option_bind run].
    unfold step. rewrite Hcr1. unfold background_shutdown.
    by rewrite Hl1, (Hd1 Hd). }
  split; [apply Forall_app; split; [done|by repeat constructor]|].
  by repeat split.
Qed.

Lemma count_tracked_exited gs :
  (∀ j g, gs !! j = Some g → g_pc g = GExited) → count_tracked gs = 0.
Proof.
  unfold count_tracked. induction gs as [|g gs IH]; intros Hex; [done|].
  simpl. rewrite IH by (intros j h Hj; by apply (Hex (S j))).
  unfold tracked. by rewrite (Hex 0 g).
Qed.

(** X11.  [Close] terminates.  From every state reached without a panic of
    [Sync], a caller that enters [Close] can be served to the end: there is a
    continuation, in which [background] finishes its sweep and returns and
    the goroutines run out, again without a panic, after which this call of
    [Close] has returned. *)
Theorem X11_close_terminates acts σ caller :
  run NewTimeTickSyncInspector acts = Some σ →
  Forall (λ a, is_sync_panic a = false) acts →
  closers σ !! caller = None →
  ∃ acts' σ', run σ acts' = Some σ' ∧
    Forall (λ a, is_sync_panic a = false) acts' ∧
    closers σ' !! caller = Some CReturned ∧
    crashed σ' = false.
Proof.
  intros Hrun Hnp Hfresh. pose proof (run_reachable _ _ Hrun) as Hreach.
  destruct (run_without_panic acts NewTimeTickSyncInspector σ reachable_new
              eq_refl (Forall_nil_2 _) Hrun Hnp) as [Hcr Hall].
  (* Cancel *)
  set (σ1 := set_closers <[caller := CBlockUntilFinish]>
               (set_insp (set_taskNotifier syncutil.Cancel) σ)).
  assert (step σ (AClose caller) = Some σ1) as Hs1.
  { unfold step. rewrite Hcr. unfold Close_step. by rewrite Hfresh. }
  assert (reachable σ1) as Hreach1 by (by eapply reachable_step).
  (* background returns *)
  destruct (loop_finishes σ1) as (acts2 & σ2 & Hrun2 & Hnp2 & Hl2 & Hcr2 & Hc2 & Hall2);
    try done.
  assert (reachable σ2) as Hreach2 by (by eapply run_reachable_from).
  (* the goroutines run out *)
  destruct (drain_goroutines (length (goroutines σ2)) σ2)
    as (acts3 & σ3 & Hrun3 & Hnp3 & Hcr3 & Hl3 & Hc3 & Ht3 & Hn3 & Hex3 & _);
    try done.
  assert (reachable σ3) as Hreach3 by (by eapply run_reachable_from).
  pose proof (reachable_inv _ Hreach3) as [_ Hwg3 Hf3 _].
  assert (wg (insp σ3) = 0) as Hz.
  { rewrite Hwg3. apply count_tracked_exited. intros j g Hj.
    destruct (Hex3 j) as (h & Hh & Hpc).
    - rewrite <-Hn3. by eapply lookup_lt_Some.
    - rewrite <-Hn3. by eapply lookup_lt_Some.
    - congruence. }
  assert (syncutil.finished (taskNotifier (insp σ3)) = true) as Hfin.
  { apply Hf3. congruence. }
  assert (closers σ3 !! caller = Some CBlockUntilFinish) as Hc.
  { rewrite Hc3, Hc2. simpl. apply lookup_insert_eq. }
  exists (AClose caller :: acts2 ++ acts3 ++ [AClose caller; AClose caller]).
  eexists. split.
  { cbn [run]. rewrite Hs1, run_app, Hrun2. cbn [mbind option_bind].
    rewrite run_app, Hrun3. cbn [mbind option_bind run].
    unfold step at 1. rewrite Hcr3. unfold Close_step at 1. rewrite Hc, Hfin.
    unfold step. cbn [crashed set_closers]. rewrite Hcr3. unfold Close_step.
    cbn [closers set_closers insp wg]. rewrite lookup_insert_eq, Hz. simpl.
    reflexivity. }
  split.
  { constructor; [done|]. apply Forall_app. split; [done|].
    apply Forall_app. split; [|by repeat constructor].
    eapply Forall_impl; [done|]. by intros a [? _]. }
  simpl. split; [apply lookup_insert_eq|done].
Qed.

Lemma X11_close_terminates_witness :
  run NewTimeTickSyncInspector sched_tick = Some state_tick ∧
  ∃ acts' σ', run state_tick acts' = Some σ' ∧
    Forall (λ a, is_sync_panic a = false) acts' ∧
    closers σ' !! 3 = Some CReturned ∧
    crashed σ' = false.
Proof.
  assert (run NewTimeTickSyncInspector sched_tick = Some state_tick) as Hrun
    by (vm_compute; reflexivity).
  split; [exact Hrun|].
  apply (X11_close_terminates sched_tick state_tick 3 Hrun).
  - unfold sched_tick. repeat constructor.
  - vm_compute. reflexivity.
Defined.

(** X12.  Once a call of [Close] has returned, a later call by another caller
    goes through its three operations without blocking and returns, and it
    starts nothing: no event is recorded and no goroutine is added. *)
Theorem X12_close_after_close acts σ caller caller' :
  run NewTimeTickSyncInspector acts = Some σ →
  crashed σ = false →
  closers σ !! caller = Some CReturned →
  closers σ !! caller' = None →
  ∃ σ', run σ [AClose caller'; AClose caller'; AClose caller'] = Some σ' ∧
    closers σ' !! caller' = Some CReturned ∧
    trace σ' = trace σ ∧ goroutines σ' = goroutines σ ∧ loop σ' = LReturned.
Proof.
  intros Hreach%run_reachable Hcr Hret Hfresh.
  pose proof (reachable_inv _ Hreach) as [_ _ Hf Hcl].
  assert (syncutil.finished (taskNotifier (insp σ)) = true) as Hfin
    by (by eapply Hcl).
  pose proof (reachable_returned_wg _ _ Hreach Hret) as Hz.
  eexists. split.
  { cbn [run]. unfold step at 1. rewrite Hcr. unfold Close_step at 1. rewrite Hfresh.
    unfold step at 1. cbn [crashed set_closers set_insp]. rewrite Hcr.
    unfold Close_step at 1. cbn [closers set_closers set_insp insp taskNotifier
      set_taskNotifier syncutil.Cancel syncutil.finished].
    rewrite lookup_insert_eq, Hfin.
    unfold step. cbn [crashed set_closers set_insp]. rewrite Hcr.
    unfold Close_step. cbn [closers set_closers set_insp insp wg set_taskNotifier].
    rewrite lookup_insert_eq, Hz. simpl. reflexivity. }
  simpl. split; [apply lookup_insert_eq|]. split; [done|]. split; [done|].
  by apply Hf.
Qed.

Lemma X12_close_after_close_witness :
  run NewTimeTickSyncInspector sched_close = Some state_close ∧
  ∃ σ', run state_close sched_close_again = Some σ' ∧
    closers σ' !! 1 = Some CReturned ∧
    trace σ' = trace state_close ∧ goroutines σ' = goroutines state_close ∧
    loop σ' = LReturned.
Proof.
  assert (run NewTimeTickSyncInspector sched_close = Some state_close) as Hrun
    by (vm_compute; reflexivity).
  split; [exact Hrun|].
  apply (X12_close_after_close sched_close state_close 0 1 Hrun).
  - reflexivity.
  - vm_compute. reflexivity.
  - vm_compute. reflexivity.
Defined.

(** X13.  A dispatch request is dropped only while the execution of its
    channel is in flight.  For a goroutine in flight whose [Sync] does not
    panic: a request for its name is dropped now, and once the goroutine has
    run to its end the same request launches a new goroutine and puts the name
    back into [working]. *)
Theorem X13_dispatch_possible_after_completion acts σ i g persisted :
  run NewTimeTickSyncInspector acts = Some σ →
  crashed σ = false →
  goroutines σ !! i = Some g →
  g_pc g ≠ GExited →
  g_panicking g = false →
  asyncSync (g_name g) persisted σ = σ ∧
  ∃ σ', complete 5 i false σ = Some σ' ∧ crashed σ' = false ∧
    goroutines (asyncSync (g_name g) persisted σ')
      = goroutines σ' ++ [launched (g_name g) persisted] ∧
    wg (insp (asyncSync (g_name g) persisted σ')) = S (wg (insp σ')) ∧
    g_name g ∈ working (insp (asyncSync (g_name g) persisted σ')).
Proof.
  intros Hinv%run_reachable%reachable_inv Hcr Hi Hpc Hpan. split.
  - apply asyncSync_dropped. destruct Hinv as [[Hw _] _ _ _]. apply Hw. eauto.
  - destruct (complete_ok i σ g) as (σ' & Hcomp & _ & Hcr' & Hw'); try done.
    exists σ'. split; [done|]. split; [done|].
    rewrite asyncSync_launched.
    + simpl. split; [done|]. split; [done|].
      apply elem_of_union. left. by apply elem_of_singleton.
    + rewrite Hw'. apply not_elem_of_difference. right. by apply elem_of_singleton.
Qed.

Lemma X13_dispatch_possible_after_completion_witness :
  run NewTimeTickSyncInspector sched_tick = Some state_tick ∧
  asyncSync "A" true state_tick = state_tick ∧
  ∃ σ', complete 5 1 false state_tick = Some σ' ∧ crashed σ' = false ∧
    goroutines (asyncSync "A" true σ') = goroutines σ' ++ [launched "A" true] ∧
    wg (insp (asyncSync "A" true σ')) = S (wg (insp σ')) ∧
    "A"%string ∈ working (insp (asyncSync "A" true σ')).
Proof.
  assert (run NewTimeTickSyncInspector sched_tick = Some state_tick) as Hrun
    by (vm_compute; reflexivity).
  split; [exact Hrun|].
  apply (X13_dispatch_possible_after_completion sched_tick state_tick 1
           {| g_name := "A"; g_persisted := false; g_pc := GSyncing opA;
              g_panicking := false |} true Hrun).
  - reflexivity.
  - reflexivity.
  - simpl. discriminate.
  - reflexivity.
Defined.

(** X14.  A tick over an empty registry is a no-op: the only visiting order
    is the empty one, and after the sweep the system is exactly as before. *)
Theorem X14_tick_on_empty_registry σ :
  crashed σ = false →
  loop σ = LSelect →
  operators (insp σ) = ∅ →
  (∀ order σ', step σ (ALoopTick order) = Some σ' → order = []) ∧
  run σ (tick_sweep []) = Some σ.
Proof.
  intros Hcr Hl Hops. split.
  - intros order σ' [_ Hstep]%step_spec. inversion Hstep as
      [| | | | |σ0 order0 _ Hperm| | | | | | | | | | |]; subst.
    rewrite Hops, map_to_list_empty in Hperm. by apply Permutation_nil_r.
  - rewrite run_tick_sweep; try done.
    + unfold tick_requests, dispatch_all. simpl. by rewrite <-Hl, set_loop_id.
    + apply Range_order_true. by rewrite Hops, map_to_list_empty.
Qed.

Lemma X14_tick_on_empty_registry_witness :
  (∀ order σ', step NewTimeTickSyncInspector (ALoopTick order) = Some σ' → order = []) ∧
  run NewTimeTickSyncInspector (tick_sweep []) = Some NewTimeTickSyncInspector.
Proof.
  apply (X14_tick_on_empty_registry NewTimeTickSyncInspector); reflexivity.
Defined.

(** ** The accumulator wakes the loop *)

Lemma dispatch_all_syncNotifier reqs σ :
  syncNotifier (insp (dispatch_all reqs σ)) = syncNotifier (insp σ).
Proof.
  induction reqs as [|req reqs IH] using rev_ind; [done|].
  rewrite dispatch_all_snoc.
  by destruct (dispatch_cases req (dispatch_all reqs σ)) as [[_ ->]|[_ ->]].
Qed.

(** X15.  When the accumulator wakes [background], the loop drains it and
    issues one dispatch request per drained signal, for the name of the
    signal's channel and with the signal's own flag, in the order of the
    drain; afterwards nothing is pending and the loop is back at its
    [select]. *)
Theorem X15_wake_serves_every_signal σ order :
  crashed σ = false →
  loop σ = LSelect →
  syncNotifier (insp σ) ≠ ∅ →
  order ≡ₚ map_to_list (syncNotifier (insp σ)) →
  ∃ σ', run σ (wake_sweep order) = Some σ' ∧
    loop σ' = LSelect ∧
    syncNotifier (insp σ') = ∅ ∧
    trace σ' = trace σ ++ ((λ sig, EvDispatch (Name sig.1) sig.2) <$> order) ∧
    operators (insp σ') = operators (insp σ).
Proof.
  intros Hcr Hl Hne Hperm. eexists. split; [by apply run_wake_sweep|].
  set (σ0 := set_insp (set_syncNotifier (λ _, ∅)) σ).
  destruct (dispatch_all_frame (signal_requests order) σ0) as (Htr & _ & Hops & _).
  simpl. rewrite dispatch_all_syncNotifier, Htr, Hops.
  unfold signal_requests. by rewrite <-list_fmap_compose.
Qed.

Lemma X15_wake_serves_every_signal_witness :
  ∃ σ', run (set_insp (λ s, (TriggerSync chB true s).2) state_registered)
           (wake_sweep [(chB, true)]) = Some σ' ∧
    loop σ' = LSelect ∧
    syncNotifier (insp σ') = ∅ ∧
    trace σ' = trace state_registered ++ [EvDispatch "B" true] ∧
    operators (insp σ') = operators (insp state_registered).
Proof.
  apply (X15_wake_serves_every_signal
           (set_insp (λ s, (TriggerSync chB true s).2) state_registered)
           [(chB, true)]).
  - reflexivity.
  - reflexivity.
  - vm_compute. discriminate.
  - vm_compute. reflexivity.
Defined.

(** ** Where the flag of a [Sync] call comes from *)

Lemma run_call_syncNotifier c s :
  syncNotifier (run_call c s).2
  = match c with
    | CallTriggerSync pChannelInfo persisted =>
        syncNotifier.AddAndNotify pChannelInfo persisted (syncNotifier s)
    | _ => syncNotifier s
    end.
Proof.
  destruct c as [ch p|ch|op|op]; unfold run_call, TriggerSync, MustGetOperator,
    RegisterSyncOperator, UnregisterSyncOperator, bind, operators_Get,
    operators_GetOrInsert, operators_GetAndRemove, typeutil.Get,
    typeutil.GetOrInsert, typeutil.GetAndRemove, ret, panic; simpl.
  - done.
  - by destruct (operators s !! Name ch).
  - by destruct (operators s !! Name (Channel op)).
  - by destruct (operators s !! Name (Channel op)).
Qed.

Lemma AddAndNotify_true pChannelInfo persisted other (n : gmap PChannelInfo bool) :
  syncNotifier.AddAndNotify pChannelInfo persisted n !! other = Some true →
  n !! other = Some true ∨ (other = pChannelInfo ∧ persisted = true).
Proof.
  unfold syncNotifier.AddAndNotify.
  destruct (n !! pChannelInfo) as [old|] eqn:Hold; rewrite lookup_insert;
    case_decide as Heq; subst; try (by left).
  - intros [= Hor]. apply orb_true_iff in Hor as [-> | ->]; [by left|by right].
  - intros [= ->]. by right.
Qed.

Lemma triggered_mono (T T' : PChannelInfo → Prop) name :
  (∀ ch, T ch → T' ch) → triggered T name → triggered T' name.
Proof. intros Hsub (ch & Hn & Ht). exists ch. eauto. Qed.

Lemma inv_flags_new T : inv_flags T NewTimeTickSyncInspector.
Proof.
  constructor; simpl.
  - intros ch. unfold syncNotifier.new. by rewrite lookup_empty.
  - done.
  - constructor.
  - intros name Hin. by apply elem_of_nil in Hin.
  - intros operator persisted Hin. by apply elem_of_nil in Hin.
Qed.

(** Changes that touch neither the accumulator, the trace nor the names and
    flags of the goroutines keep [inv_flags]. *)
Lemma inv_flags_frame T T' σ σ' :
  (∀ ch, T ch → T' ch) →
  syncNotifier (insp σ') = syncNotifier (insp σ) →
  (∀ rest, loop σ' = LSignals rest → loop σ = LSignals rest) →
  trace σ' = trace σ →
  Forall (λ g, EvDispatch (g_name g) (g_persisted g) ∈ trace σ) (goroutines σ') →
  inv_flags T σ → inv_flags T' σ'.
Proof.
  intros Hsub Hsn Hloop Htr Hgs [Hp Hl Hg Hd Hs].
  constructor; rewrite ?Hsn, ?Htr; eauto using triggered_mono.
Qed.

Lemma inv_flags_dispatch T σ req pc :
  (req.2 = true → triggered T req.1) →
  (∀ rest ch, pc = LSignals rest → (ch, true) ∈ rest → T ch) →
  inv_flags T σ → inv_flags T (set_loop pc (dispatch req σ)).
Proof.
  intros Hreq Hpc [Hp Hl Hg Hd Hs].
  assert (Forall (λ g, EvDispatch (g_name g) (g_persisted g)
                       ∈ trace σ ++ [EvDispatch req.1 req.2]) (goroutines σ)) as Hg'.
  { eapply Forall_impl; [done|]. intros g Hin. apply elem_of_app. by left. }
  assert (∀ name, EvDispatch name true ∈ trace σ ++ [EvDispatch req.1 req.2] →
                  triggered T name) as Hd'.
  { intros name [Hin|Hin%list_elem_of_singleton]%elem_of_app; [by apply Hd|].
    injection Hin as -> Htrue. by apply Hreq. }
  assert (∀ operator persisted,
            EvSync operator persisted ∈ trace σ ++ [EvDispatch req.1 req.2] →
            EvDispatch (Name (Channel operator)) persisted
              ∈ trace σ ++ [EvDispatch req.1 req.2]) as Hs'.
  { intros operator persisted [Hin|Hin%list_elem_of_singleton]%elem_of_app; [|done].
    apply elem_of_app. left. by apply Hs. }
  destruct (dispatch_cases req σ) as [[_ ->]|[_ ->]]; constructor; simpl; try done.
  apply Forall_app. split; [done|]. constructor; [|constructor]. simpl.
  apply elem_of_app. right. by apply list_elem_of_singleton.
Qed.

Ltac flags_frame H :=
  lazymatch type of H with
  | inv_flags ?T ?σ => eapply (inv_flags_frame T T σ _ (λ _ X, X))
  end;
    [reflexivity
    |try (by intros rest); simpl; try done
    |reflexivity
    |
    |exact H].

Lemma inv_flags_step T T' σ a σ' :
  (∀ ch, T ch → T' ch) →
  (∀ ch, a = ACall (CallTriggerSync ch true) → T' ch) →
  inv_more σ → inv_flags T σ → step_rel σ a σ' → inv_flags T' σ'.
Proof.
  intros Hsub Hnew [Hkeys _ _ _ _ _] Hflags Hstep.
  assert (inv_flags T' σ) as Hflags'.
  { eapply (inv_flags_frame T T' σ σ); eauto. by destruct Hflags. }
  clear Hflags. pose proof (flags_goroutines _ _ Hflags') as Hgs.
  destruct Hstep as
    [σ c|σ caller Hc|σ caller Hc Hf|σ caller Hc Hz|σ Hl Hd|σ order Hl Hp
    |σ order Hl Hne Hp|σ name rest Hl|σ pchannel persisted rest Hl|σ Hl
    |σ i g operator Hi Hpc Hop|σ i g Hi Hpc Hop|σ i g operator Hi Hpc
    |σ i g operator Hi Hpc|σ i g Hi Hpc Hz|σ i g n Hi Hpc Hn|σ i g Hi Hpc].
  - destruct Hflags' as [Hp Hl Hg Hd Hs]. constructor; try done.
    cbn [insp set_insp]. rewrite run_call_syncNotifier. intros ch.
    destruct c as [ch' p| | |]; try apply Hp.
    intros [Hold|[-> ->]]%AddAndNotify_true; [by apply Hp|by apply Hnew].
  - flags_frame Hflags'. exact Hgs.
  - flags_frame Hflags'. exact Hgs.
  - flags_frame Hflags'. exact Hgs.
  - flags_frame Hflags'. exact Hgs.
  - flags_frame Hflags'. exact Hgs.
  - destruct Hflags' as [Hpend Hloop Hg Hd Hs]. constructor; simpl; try done.
    intros rest ch [= <-] Hin. apply Hpend. apply elem_of_map_to_list.
    by rewrite <-Hp.
  - apply inv_flags_dispatch; [done|done|done].
  - apply inv_flags_dispatch; [| |done].
    + simpl. intros ->. exists pchannel. split; [done|].
      destruct Hflags' as [_ Hloop _ _ _]. eapply Hloop; [done|]. left.
    + intros rest' ch [= <-] Hin. destruct Hflags' as [_ Hloop _ _ _].
      eapply Hloop; [done|]. by right.
  - flags_frame Hflags'. exact Hgs.
  - destruct Hflags' as [Hpend Hloop Hg Hd Hs].
    pose proof (Forall_lookup_1 _ _ _ _ Hg Hi) as Hgi.
    constructor; simpl; try done.
    + apply Forall_insert; [|simpl; apply elem_of_app; by left].
      eapply Forall_impl; [done|]. intros h Hh. apply elem_of_app. by left.
    + intros name [Hin|Hin%list_elem_of_singleton]%elem_of_app; [by apply Hd|done].
    + intros op p [Hin|Hin%list_elem_of_singleton]%elem_of_app.
      * apply elem_of_app. left. by apply Hs.
      * injection Hin as -> ->. apply elem_of_app. left.
        by rewrite (Hkeys _ _ Hop).
  - flags_frame Hflags'. simpl.
    apply Forall_insert; [done|]. exact (Forall_lookup_1 _ _ _ _ Hgs Hi).
  - flags_frame Hflags'. simpl.
    apply Forall_insert; [done|]. exact (Forall_lookup_1 _ _ _ _ Hgs Hi).
  - flags_frame Hflags'. simpl.
    apply Forall_insert; [done|]. exact (Forall_lookup_1 _ _ _ _ Hgs Hi).
  - flags_frame Hflags'. exact Hgs.
  - flags_frame Hflags'. simpl.
    apply Forall_insert; [done|]. exact (Forall_lookup_1 _ _ _ _ Hgs Hi).
  - assert (Forall (λ h, EvDispatch (g_name h) (g_persisted h) ∈ trace σ)
              (<[i := set_pc GExited g]> (goroutines σ))) as Hg'.
    { apply Forall_insert; [done|]. exact (Forall_lookup_1 _ _ _ _ Hgs Hi). }
    destruct (g_panicking g); flags_frame Hflags'; exact Hg'.
Qed.

Lemma run_inv_flags acts σ :
  run NewTimeTickSyncInspector acts = Some σ → inv_flags (triggered_in acts) σ.
Proof.
  revert σ. induction acts as [|a acts IH] using rev_ind; intros σ.
  - intros [= <-]. apply inv_flags_new.
  - rewrite run_app. destruct (run _ acts) as [σ1|] eqn:Hrun; [|done]. simpl.
    destruct (step σ1 a) as [σ2|] eqn:Hs; [|done]. intros [= <-].
    apply step_spec in Hs as [_ Hs].
    eapply (inv_flags_step (triggered_in acts)); [| | |by apply IH|done].
    + intros ch Hin. apply elem_of_app. by left.
    + intros ch ->. apply elem_of_app. right. by apply list_elem_of_singleton.
    + by apply reachable_inv_more, (run_reachable acts).
Qed.

(** X16.  Every [Sync] call answers a dispatch request: a call
    [Sync(_, persisted)] on an operator is recorded only after [background]
    has issued a request with that very flag for the channel name of the
    operator, and every goroutine carries the name and flag of such a
    request. *)
Theorem X16_sync_answers_a_dispatch acts σ :
  run NewTimeTickSyncInspector acts = Some σ →
  (∀ operator persisted, EvSync operator persisted ∈ trace σ →
     EvDispatch (Name (Channel operator)) persisted ∈ trace σ) ∧
  (∀ g, g ∈ goroutines σ → EvDispatch (g_name g) (g_persisted g) ∈ trace σ).
Proof.
  intros [_ _ Hg _ Hs]%run_inv_flags. split; [done|].
  by apply Forall_forall.
Qed.

Lemma X16_sync_answers_a_dispatch_witness :
  run NewTimeTickSyncInspector sched_trigger = Some state_trigger ∧
  EvSync opA true ∈ trace state_trigger ∧
  EvDispatch (Name (Channel opA)) true ∈ trace state_trigger.
Proof.
  assert (run NewTimeTickSyncInspector sched_trigger = Some state_trigger) as Hrun
    by (vm_compute; reflexivity).
  assert (EvSync opA true ∈ trace state_trigger) as Hin
    by (right; left).
  split; [exact Hrun|]. split; [exact Hin|].
  exact (proj1 (X16_sync_answers_a_dispatch sched_trigger state_trigger Hrun)
           opA true Hin).
Defined.

(** X17.  [Sync] is asked to persist only on demand: a call [Sync(_, true)] on
    an operator, and already a dispatch request with flag [true], occurs only
    in a run in which [TriggerSync(_, true)] was called for a channel identity
    of that name.  The periodic tick never asks to persist. *)
Theorem X17_persisted_sync_needs_a_trigger acts σ :
  run NewTimeTickSyncInspector acts = Some σ →
  (∀ operator, EvSync operator true ∈ trace σ →
     ∃ pChannelInfo, Name pChannelInfo = Name (Channel operator) ∧
       ACall (CallTriggerSync pChannelInfo true) ∈ acts) ∧
  (∀ name, EvDispatch name true ∈ trace σ →
     ∃ pChannelInfo, Name pChannelInfo = name ∧
       ACall (CallTriggerSync pChannelInfo true) ∈ acts).
Proof.
  intros [_ _ _ Hd Hs]%run_inv_flags. split; [|done].
  intros operator Hin. by apply Hd, Hs.
Qed.

Lemma X17_persisted_sync_needs_a_trigger_witness :
  run NewTimeTickSyncInspector sched_trigger = Some state_trigger ∧
  EvSync opA true ∈ trace state_trigger ∧
  ∃ pChannelInfo, Name pChannelInfo = Name (Channel opA) ∧
    ACall (CallTriggerSync pChannelInfo true) ∈ sched_trigger.
Proof.
  assert (run NewTimeTickSyncInspector sched_trigger = Some state_trigger) as Hrun
    by (vm_compute; reflexivity).
  assert (EvSync opA true ∈ trace state_trigger) as Hin
    by (right; left).
  split; [exact Hrun|]. split; [exact Hin|].
  exact (proj1 (X17_persisted_sync_needs_a_trigger sched_trigger state_trigger Hrun)
           opA Hin).
Defined.

(** ** Calls of the public methods start nothing by themselves *)

Lemma run_calls_frame acts σ σ' :
  Forall (λ a, is_call a = true) acts → run σ acts = Some σ' →
  loop σ' = loop σ ∧ goroutines σ' = goroutines σ ∧ trace σ' = trace σ ∧
  closers σ' = closers σ ∧ crashed σ' = crashed σ ∧
  taskNotifier (insp σ') = taskNotifier (insp σ) ∧
  wg (insp σ') = wg (insp σ) ∧ working (insp σ') = working (insp σ).
Proof.
  intros Hall. revert σ. induction Hall as [|a acts Ha Hall IH]; intros σ; simpl.
  - by intros [= <-].
  - destruct a as [c| | | | | | | |]; try done. unfold step.
    destruct (crashed σ) eqn:Hcr; [done|]. intros Hrun.
    destruct (IH _ Hrun) as (-> & -> & -> & -> & -> & -> & -> & ->). simpl.
    by destruct (run_call_frame c (insp σ)) as (-> & -> & ->).
Qed.

(** X18.  The public methods other than [Close] start nothing: a run made of
    calls of [TriggerSync], [MustGetOperator], [RegisterSyncOperator] and
    [UnregisterSyncOperator] only, panicking or not, records no dispatch and
    no [Sync] call and launches no goroutine; and a [Close] right after it
    returns in four steps, still with no [Sync] call made. *)
Theorem X18_calls_alone_start_no_sync acts σ caller :
  Forall (λ a, is_call a = true) acts →
  run NewTimeTickSyncInspector acts = Some σ →
  trace σ = [] ∧ goroutines σ = [] ∧ loop σ = LSelect ∧
  ∃ σ', run σ (close_schedule caller) = Some σ' ∧
    closers σ' !! caller = Some CReturned ∧ trace σ' = [] ∧ goroutines σ' = [].
Proof.
  intros Hall Hrun.
  destruct (run_calls_frame _ _ _ Hall Hrun)
    as (Hl & Hg & Htr & Hc & Hcr & Ht & Hwg & _).
  simpl in *. repeat (split; [done|]).
  eexists. split.
  { unfold close_schedule. cbn [run]. unfold step at 1. rewrite Hcr.
    unfold Close_step at 1. rewrite Hc, lookup_empty.
    unfold step at 1. cbn [crashed set_closers set_insp]. rewrite Hcr.
    unfold background_shutdown. cbn [loop set_closers set_insp insp taskNotifier
      set_taskNotifier syncutil.Cancel syncutil.ctx_done]. rewrite Hl.
    unfold step at 1. cbn [crashed set_loop set_closers set_insp]. rewrite Hcr.
    unfold Close_step at 1. cbn [closers set_loop set_closers set_insp].
    rewrite lookup_insert_eq.
    cbn [insp set_loop set_insp set_closers taskNotifier set_taskNotifier
      syncutil.Finish syncutil.finished].
    unfold step. cbn [crashed set_loop set_closers set_insp]. rewrite Hcr.
    unfold Close_step. cbn [closers set_loop set_closers set_insp].
    rewrite lookup_insert_eq.
    cbn [insp set_loop set_insp set_closers wg set_taskNotifier]. rewrite Hwg.
    simpl. reflexivity. }
  simpl. split; [apply lookup_insert_eq|done].
Qed.

Lemma X18_calls_alone_start_no_sync_witness :
  ∃ σ, run NewTimeTickSyncInspector sched_calls = Some σ ∧
  trace σ = [] ∧ goroutines σ = [] ∧ loop σ = LSelect ∧
  ∃ σ', run σ (close_schedule 0) = Some σ' ∧
    closers σ' !! 0 = Some CReturned ∧ trace σ' = [] ∧ goroutines σ' = [].
Proof.
  destruct (run NewTimeTickSyncInspector sched_calls) as [σ|] eqn:Hrun;
    [|by vm_compute in Hrun].
  exists σ. split; [done|].
  apply (X18_calls_alone_start_no_sync sched_calls σ 0); [|exact Hrun].
  unfold sched_calls. repeat constructor.
Defined.

(** ** C2: what a pair of triggers leads to, in every schedule *)













Section served.
Variables (C : PChannelInfo) (flag : bool) (E0 : list Event).
Variable kept : option TimeTickSyncOperator.










End served.












